(** * ssh-mcp-server: the command classifier and the session registry

    A shallow embedding of [dist/index.js]: the regular expressions of
    [isCommandDangerous] with a backtracking matcher that follows the
    ECMAScript continuation semantics, and the tool handlers of the
    [CallToolRequestSchema] request handler as state-passing functions over
    the global [connections] map and a log of the calls made to the ssh2
    client. *)

From Stdlib Require Import Ascii String List Bool NArith ZArith Lia.
From stdpp Require Import gmap strings list pretty.
Import ListNotations.

Local Open Scope string_scope.
Local Open Scope list_scope.

(* ================================================================== *)
(** * Characters and strings *)
(* ================================================================== *)

(** A JavaScript string is a sequence of UTF-16 code units.  The model keeps
    the code units U+0000 .. U+00FF, one per [ascii]. *)
Definition code (c : ascii) : N := N_of_ascii c.

Definition in_range (lo hi : ascii) (c : ascii) : bool :=
  (code lo <=? code c)%N && (code c <=? code hi)%N.

(** WhiteSpace and LineTerminator of ECMAScript below U+0100: TAB, LF, VT,
    FF, CR, SP and NBSP.  Both [String.prototype.trim] and the class [\s]
    use this set. *)
Definition is_space (c : ascii) : bool :=
  let n := code c in
  ((9 <=? n)%N && (n <=? 13)%N) || (n =? 32)%N || (n =? 160)%N.

(** The word characters of [\b]: [A-Za-z0-9_]. *)
Definition is_word (c : ascii) : bool :=
  in_range "a" "z" c || in_range "A" "Z" c || in_range "0" "9" c
  || Ascii.eqb c "_".

(** The line terminators that [.] refuses. *)
Definition is_line_terminator (c : ascii) : bool :=
  (code c =? 10)%N || (code c =? 13)%N.

(** [String.prototype.toLowerCase] on one code unit below U+0100. *)
Definition lower_char (c : ascii) : ascii :=
  let n := code c in
  if ((65 <=? n)%N && (n <=? 90)%N)
     || ((192 <=? n)%N && (n <=? 222)%N && negb (n =? 215)%N)
  then ascii_of_N (n + 32) else c.

Definition toLowerCase (s : list ascii) : list ascii := map lower_char s.

Fixpoint trimStart (s : list ascii) : list ascii :=
  match s with
  | c :: t => if is_space c then trimStart t else s
  | [] => []
  end.

Definition trimEnd (s : list ascii) : list ascii := rev (trimStart (rev s)).

(** [String.prototype.trim]. *)
Definition trim (s : list ascii) : list ascii := trimEnd (trimStart s).

Definition chars (s : string) : list ascii := list_ascii_of_string s.

(* ================================================================== *)
(** * Regular expressions *)
(* ================================================================== *)

(** The fragment of the ECMAScript pattern syntax that [index.js] uses (no
    flags, no captures read back, no back-references). *)
Inductive regex : Type :=
| Empty                                         (* the empty pattern *)
| Char (c : ascii)                              (* a literal character *)
| Dot                                           (* .  *)
| Class (negated : bool) (ranges : list (ascii * ascii))   (* [..] / [^..] *)
| WhiteSpace                                    (* \s *)
| AssertStart                                   (* ^  *)
| AssertEnd                                     (* $  *)
| WordBoundary                                  (* \b *)
| Seq (r1 r2 : regex)
| Alt (r1 r2 : regex)
| Star (r : regex).                             (* r* *)

(** [r+] *)
Definition Plus (r : regex) : regex := Seq r (Star r).

Fixpoint lit_chars (s : list ascii) : regex :=
  match s with
  | [] => Empty
  | [c] => Char c
  | c :: t => Seq (Char c) (lit_chars t)
  end.

(** A run of literal characters. *)
Definition lit (s : string) : regex := lit_chars (chars s).

(** A sequence of patterns. *)
Fixpoint cat (rs : list regex) : regex :=
  match rs with
  | [] => Empty
  | [r] => r
  | r :: t => Seq r (cat t)
  end.

(** A disjunction [(r1|r2|..)]. *)
Fixpoint alt (rs : list regex) : regex :=
  match rs with
  | [] => Class false []
  | [r] => r
  | r :: t => Alt r (alt t)
  end.

(** A disjunction of literal words [(w1|w2|..)]. *)
Definition words (ws : list string) : regex := alt (map lit ws).

(** A class that lists single characters, as [[rf]]. *)
Definition one_of (s : string) : list (ascii * ascii) :=
  map (fun c => (c, c)) (chars s).

Definition in_class (ranges : list (ascii * ascii)) (c : ascii) : bool :=
  existsb (fun r => in_range (fst r) (snd r) c) ranges.

(** Whether position (previous character, rest of the input) is a word
    boundary. *)
Definition word_before (prev : option ascii) : bool :=
  match prev with Some c => is_word c | None => false end.

Definition word_after (s : list ascii) : bool :=
  match s with c :: _ => is_word c | [] => false end.

Definition at_boundary (prev : option ascii) (s : list ascii) : bool :=
  xorb (word_before prev) (word_after s).

(** One character consumed when [ok] accepts it. *)
Definition step_char (ok : ascii -> bool) (s : list ascii)
    (k : option ascii -> list ascii -> bool) : bool :=
  match s with
  | c :: t => if ok c then k (Some c) t else false
  | [] => false
  end.

(** The matcher, in continuation-passing style as in the ECMAScript
    specification: [matcher r prev s k] holds when [r] matches a prefix of
    [s] (with [prev] the character just before [s], [None] at the start of
    the input) and the continuation [k] accepts what follows.  An iteration
    of [Star] that consumes nothing is refused, as the specification says,
    so [length s] iterations are enough. *)
Fixpoint matcher (r : regex) (prev : option ascii) (s : list ascii)
    (k : option ascii -> list ascii -> bool) {struct r} : bool :=
  match r with
  | Empty => k prev s
  | Char c => step_char (Ascii.eqb c) s k
  | Dot => step_char (fun x => negb (is_line_terminator x)) s k
  | Class neg ranges => step_char (fun x => xorb neg (in_class ranges x)) s k
  | WhiteSpace => step_char is_space s k
  | AssertStart => match prev with None => k prev s | Some _ => false end
  | AssertEnd => match s with [] => k prev s | _ :: _ => false end
  | WordBoundary => if at_boundary prev s then k prev s else false
  | Seq r1 r2 => matcher r1 prev s (fun p' s' => matcher r2 p' s' k)
  | Alt r1 r2 => matcher r1 prev s k || matcher r2 prev s k
  | Star r1 =>
      (fix loop (fuel : nat) (prev : option ascii) (s : list ascii) : bool :=
         match fuel with
         | O => k prev s
         | S fuel' =>
             matcher r1 prev s
               (fun p' s' =>
                  if (length s' <? length s)%nat then loop fuel' p' s'
                  else false)
             || k prev s
         end) (length s) prev s
  end.

(** The iteration of [Star], taken out of [matcher]. *)
Definition star_loop (r : regex) (k : option ascii -> list ascii -> bool) :=
  fix loop (fuel : nat) (prev : option ascii) (s : list ascii) : bool :=
    match fuel with
    | O => k prev s
    | S fuel' =>
        matcher r prev s
          (fun p' s' =>
             if (length s' <? length s)%nat then loop fuel' p' s' else false)
        || k prev s
    end.

(** A match that starts exactly at the position (prev, s). *)
Definition matches_here (r : regex) (prev : option ascii) (s : list ascii)
  : bool :=
  matcher r prev s (fun _ _ => true).

(** The search of [RegExp.prototype.test] without the [g] and [y] flags:
    every start index from 0 to the length of the input is tried. *)
Fixpoint search (r : regex) (prev : option ascii) (s : list ascii) : bool :=
  matches_here r prev s
  || match s with
     | [] => false
     | c :: t => search r (Some c) t
     end.

Definition test (r : regex) (s : list ascii) : bool := search r None s.

(** The matches of a pattern, as a relation: [Matches r p s p' s'] when [r]
    matches from the position (p, s) up to the position (p', s').  This is
    what the backtracking of [matcher] explores. *)
Inductive Matches :
  regex -> option ascii -> list ascii -> option ascii -> list ascii -> Prop :=
| MatchEmpty p s : Matches Empty p s p s
| MatchChar c p s : Matches (Char c) p (c :: s) (Some c) s
| MatchDot x p s :
    is_line_terminator x = false -> Matches Dot p (x :: s) (Some x) s
| MatchClass neg ranges x p s :
    xorb neg (in_class ranges x) = true ->
    Matches (Class neg ranges) p (x :: s) (Some x) s
| MatchWhiteSpace x p s :
    is_space x = true -> Matches WhiteSpace p (x :: s) (Some x) s
| MatchStart s : Matches AssertStart None s None s
| MatchEnd p : Matches AssertEnd p [] p []
| MatchBoundary p s :
    at_boundary p s = true -> Matches WordBoundary p s p s
| MatchSeq r1 r2 p s p1 s1 p2 s2 :
    Matches r1 p s p1 s1 -> Matches r2 p1 s1 p2 s2 ->
    Matches (Seq r1 r2) p s p2 s2
| MatchAltL r1 r2 p s p' s' :
    Matches r1 p s p' s' -> Matches (Alt r1 r2) p s p' s'
| MatchAltR r1 r2 p s p' s' :
    Matches r2 p s p' s' -> Matches (Alt r1 r2) p s p' s'
| MatchStarDone r p s : Matches (Star r) p s p s
| MatchStarMore r p s p1 s1 p2 s2 :
    Matches r p s p1 s1 -> Matches (Star r) p1 s1 p2 s2 ->
    Matches (Star r) p s p2 s2.

(** [occurs_at r pre post]: [r] has a match that starts at the position
    which splits the input [pre ++ post]. *)
Definition occurs_at (r : regex) (pre post : list ascii) : bool :=
  matches_here r (last pre) post.

(** [strip w s]: what is left of [s] after the prefix [w], if [s] starts
    with it. *)
Fixpoint strip (w s : list ascii) : option (list ascii) :=
  match w with
  | [] => Some s
  | c :: w' =>
      match s with
      | x :: t => if Ascii.eqb c x then strip w' t else None
      | [] => None
      end
  end.

(** The character before the position reached after reading [w] from a
    position whose previous character is [prev]. *)
Definition prev_after (prev : option ascii) (w : list ascii) : option ascii :=
  match last w with Some c => Some c | None => prev end.

(* ================================================================== *)
(** * The classifier: [isCommandDangerous] *)
(* ================================================================== *)

(** [\s+] *)
Definition ws1 : regex := Plus WhiteSpace.

(** [.*] *)
Definition any_run : regex := Star Dot.

(** The five read-only patterns tested first, each anchored with [^]. *)

(* /^systemctl\s+(status|show|list-units|list-unit-files|is-active|is-enabled|is-failed|cat|help)/ *)
Definition allow_systemctl : regex :=
  cat [AssertStart; lit "systemctl"; ws1;
       words ["status"; "show"; "list-units"; "list-unit-files"; "is-active";
              "is-enabled"; "is-failed"; "cat"; "help"]].

(* /^git\s+(status|log|show|diff|branch|remote|config\s+--list|ls-files|ls-remote)/ *)
Definition allow_git : regex :=
  cat [AssertStart; lit "git"; ws1;
       alt [lit "status"; lit "log"; lit "show"; lit "diff"; lit "branch";
            lit "remote"; cat [lit "config"; ws1; lit "--list"];
            lit "ls-files"; lit "ls-remote"]].

(* /^(apt|yum|dnf|pacman)\s+(list|search|show|info|query)/ *)
Definition allow_package : regex :=
  cat [AssertStart; words ["apt"; "yum"; "dnf"; "pacman"]; ws1;
       words ["list"; "search"; "show"; "info"; "query"]].

(* /^docker\s+(ps|images|inspect|logs|version|info|system\s+df|system\s+info)/ *)
Definition allow_docker : regex :=
  cat [AssertStart; lit "docker"; ws1;
       alt [lit "ps"; lit "images"; lit "inspect"; lit "logs"; lit "version";
            lit "info"; cat [lit "system"; ws1; lit "df"];
            cat [lit "system"; ws1; lit "info"]]].

(* /^kubectl\s+(get|describe|logs|explain|version|cluster-info|config\s+view)/ *)
Definition allow_kubectl : regex :=
  cat [AssertStart; lit "kubectl"; ws1;
       alt [lit "get"; lit "describe"; lit "logs"; lit "explain";
            lit "version"; lit "cluster-info";
            cat [lit "config"; ws1; lit "view"]]].

(** The entries of [dangerousPatterns], in the order of the array.  In the
    comments a blank separates a star from a closing parenthesis that
    follows it in the source. *)

(* /\brm\s+(-[rf]*\s+)*(\/|\*|\$|~)/ *)
Definition deny_rm : regex :=
  cat [WordBoundary; lit "rm"; ws1;
       Star (cat [Char "-"; Star (Class false (one_of "rf")); ws1]);
       alt [Char "/"; Char "*"; Char "$"; Char "~"]].

(* /\bmv\s+.*\s+(\/|\* )/ *)
Definition deny_mv : regex :=
  cat [WordBoundary; lit "mv"; ws1; any_run; ws1; alt [Char "/"; Char "*"]].

(* /\bchmod\s+[0-7]*\s+(\/|~|\* )/ *)
Definition deny_chmod : regex :=
  cat [WordBoundary; lit "chmod"; ws1;
       Star (Class false [("0"%char, "7"%char)]); ws1;
       alt [Char "/"; Char "~"; Char "*"]].

(* /\bchown\s+.*\s+(\/|~|\* )/ *)
Definition deny_chown : regex :=
  cat [WordBoundary; lit "chown"; ws1; any_run; ws1;
       alt [Char "/"; Char "~"; Char "*"]].

(* />[^|&]*\s*(\/|~|\* )/ *)
Definition deny_redirect : regex :=
  cat [Char ">"; Star (Class true (one_of "|&")); Star WhiteSpace;
       alt [Char "/"; Char "~"; Char "*"]].

(* /\bdd\s+.*of=/ *)
Definition deny_dd : regex :=
  cat [WordBoundary; lit "dd"; ws1; any_run; lit "of="].

(* /\btruncate\s/ *)
Definition deny_truncate : regex :=
  cat [WordBoundary; lit "truncate"; WhiteSpace].

(* /\b(systemctl|service)\s+(stop|start|restart|disable|enable|mask|reload)/ *)
Definition deny_service : regex :=
  cat [WordBoundary; words ["systemctl"; "service"]; ws1;
       words ["stop"; "start"; "restart"; "disable"; "enable"; "mask";
              "reload"]].

(* /\b(kill|pkill|killall)\s/ *)
Definition deny_kill : regex :=
  cat [WordBoundary; words ["kill"; "pkill"; "killall"]; WhiteSpace].

(* /\b(apt|yum|dnf|pacman)\s+(install|remove|update|upgrade|autoremove)/ *)
Definition deny_package : regex :=
  cat [WordBoundary; words ["apt"; "yum"; "dnf"; "pacman"]; ws1;
       words ["install"; "remove"; "update"; "upgrade"; "autoremove"]].

(* /\b(iptables|ufw|firewall-cmd)\s/ *)
Definition deny_firewall : regex :=
  cat [WordBoundary; words ["iptables"; "ufw"; "firewall-cmd"]; WhiteSpace].

(* /\bifconfig\s+.*\s+(up|down)/ *)
Definition deny_ifconfig : regex :=
  cat [WordBoundary; lit "ifconfig"; ws1; any_run; ws1; words ["up"; "down"]].

(* /\b(useradd|userdel|usermod|passwd|su\s|sudo\s)/ *)
Definition deny_user : regex :=
  cat [WordBoundary;
       alt [lit "useradd"; lit "userdel"; lit "usermod"; lit "passwd";
            cat [lit "su"; WhiteSpace]; cat [lit "sudo"; WhiteSpace]]].

(* /\bcrontab\s+-[er]/ *)
Definition deny_crontab : regex :=
  cat [WordBoundary; lit "crontab"; ws1; Char "-"; Class false (one_of "er")].

(* /\bgit\s+(push|pull|clone|reset\s+--hard|clean\s+-f|rm)/ *)
Definition deny_git : regex :=
  cat [WordBoundary; lit "git"; ws1;
       alt [lit "push"; lit "pull"; lit "clone";
            cat [lit "reset"; ws1; lit "--hard"];
            cat [lit "clean"; ws1; lit "-f"]; lit "rm"]].

(* /\bdocker\s+(rm|rmi|kill|stop|exec|run|build|push|pull)/ *)
Definition deny_docker : regex :=
  cat [WordBoundary; lit "docker"; ws1;
       words ["rm"; "rmi"; "kill"; "stop"; "exec"; "run"; "build"; "push";
              "pull"]].

(* /\bkubectl\s+(delete|apply|create|replace|patch|scale|rollout)/ *)
Definition deny_kubectl : regex :=
  cat [WordBoundary; lit "kubectl"; ws1;
       words ["delete"; "apply"; "create"; "replace"; "patch"; "scale";
              "rollout"]].

(* /\b(nano|vi|vim|emacs|code)\s/ *)
Definition deny_editor : regex :=
  cat [WordBoundary; words ["nano"; "vi"; "vim"; "emacs"; "code"];
       WhiteSpace].

(* /\b(tar|unzip|unrar)\s+.*-[xf]/ *)
Definition deny_archive : regex :=
  cat [WordBoundary; words ["tar"; "unzip"; "unrar"]; ws1; any_run;
       Char "-"; Class false (one_of "xf")].

(* /\btcpdump\s/ *)
Definition deny_tcpdump : regex :=
  cat [WordBoundary; lit "tcpdump"; WhiteSpace].

(* /\bwireshark\s/ *)
Definition deny_wireshark : regex :=
  cat [WordBoundary; lit "wireshark"; WhiteSpace].

(* /\b(gcc|g\+\+|make|cmake|javac|python\s+setup\.py\s+install)/ *)
Definition deny_compile : regex :=
  cat [WordBoundary;
       alt [lit "gcc"; lit "g++"; lit "make"; lit "cmake"; lit "javac";
            cat [lit "python"; ws1; lit "setup.py"; ws1; lit "install"]]].

(* /&\s*$/ *)
Definition deny_background : regex :=
  cat [Char "&"; Star WhiteSpace; AssertEnd].

(* /\bnohup\s/ *)
Definition deny_nohup : regex :=
  cat [WordBoundary; lit "nohup"; WhiteSpace].

(* /\|\s*(sh|bash|zsh|csh|tcsh|fish|python|perl|ruby|node)/ *)
Definition deny_pipe_shell : regex :=
  cat [Char "|"; Star WhiteSpace;
       words ["sh"; "bash"; "zsh"; "csh"; "tcsh"; "fish"; "python"; "perl";
              "ruby"; "node"]].

Definition dangerousPatterns : list regex :=
  [ deny_rm; deny_mv; deny_chmod; deny_chown;
    deny_redirect; deny_dd; deny_truncate;
    deny_service; deny_kill;
    deny_package;
    deny_firewall; deny_ifconfig;
    deny_user; deny_crontab;
    deny_git;
    deny_docker; deny_kubectl;
    deny_editor;
    deny_archive;
    deny_tcpdump; deny_wireshark;
    deny_compile;
    deny_background; deny_nohup;
    deny_pipe_shell ].

(** [const cmd = command.trim().toLowerCase()] *)
Definition normalize (command : string) : list ascii :=
  toLowerCase (trim (chars command)).

(** [isCommandDangerous]: [true] is the verdict "denied", [false] the
    verdict "allowed". *)
Definition isCommandDangerous (command : string) : bool :=
  let cmd := normalize command in
  if test allow_systemctl cmd then false
  else if test allow_git cmd then false
  else if test allow_package cmd then false
  else if test allow_docker cmd then false
  else if test allow_kubectl cmd then false
  else existsb (fun pattern => test pattern cmd) dangerousPatterns.

(** The five allow patterns as a list, for statements that quantify over
    them. *)
Definition allowPatterns : list regex :=
  [allow_systemctl; allow_git; allow_package; allow_docker; allow_kubectl].

Definition matches_any (ps : list regex) (cmd : list ascii) : bool :=
  existsb (fun pattern => test pattern cmd) ps.

(* ================================================================== *)
(** * The server: data *)
(* ================================================================== *)

(** An entry of [availableMachines] (machines.json). *)
Module Machine.
Record ssh : Type := {
  host : string;
  port : Z;
  username : string;
  password : option string;
  keyPath : option string
}.
Record t : Type := {
  machine_id : string;
  label : string;
  os : string;
  source : string;
  ssh_of : ssh
}.
End Machine.

(** The object [buildSshConfig] returns. *)
Record SshConfig : Type := {
  cfg_host : string;
  cfg_port : Z;
  cfg_username : string;
  cfg_password : option string;
  cfg_privateKey : option string
}.

(** What [wrapExec] resolves to. *)
Record ExecResult : Type := {
  stdout : string;
  stderr : string;
  exitCode : option Z
}.

(** A value of the [connections] map.  [client] names the [SSHClient] object
    the entry owns: the objects are numbered in the order of construction. *)
Module ConnInfo.
Record t : Type := {
  connection_id : string;
  machine_id : string;
  title : string;
  currentPath : string;
  client : nat
}.
End ConnInfo.

(** The calls the handlers make on ssh2 clients. *)
Inductive Call : Type :=
| CallConnect (client : nat) (cfg : SshConfig)   (* client.connect(cfg) *)
| CallExec (client : nat) (command : string)     (* client.exec(command, ..) *)
| CallEnd (client : nat).                        (* client.end() *)

(** What lies outside the handlers: the inventory read at startup, the
    UUID source, the file system and the ssh2 library with the remote
    hosts behind it.  The replies of ssh2 may depend on every call made
    before. *)
Record Env : Type := {
  availableMachines : list Machine.t;
  (** the value the n-th call of [crypto.randomUUID()] returns *)
  randomUUID : nat -> string;
  (** [readFileSync(path, "utf8")]: the content, or the error thrown *)
  readFileSync : string -> string + string;
  (** the event that answers [client.connect(cfg)]: [None] is 'ready',
      [Some err] is 'error' *)
  ssh_connect : list Call -> nat -> SshConfig -> option string;
  (** how the promise of [wrapExec(client, command)] settles: rejected with
      an error, or resolved once the stream has closed *)
  ssh_exec : list Call -> nat -> string -> string + ExecResult
}.

(** The mutable state of the process: the [connections] map, the number of
    UUIDs drawn and of clients constructed so far, and the calls made on
    ssh2 (oldest first). *)
Record State : Type := {
  connections : gmap string ConnInfo.t;
  uuids : nat;
  clients : nat;
  calls : list Call
}.

Definition initial : State :=
  {| connections := ∅; uuids := 0; clients := 0; calls := [] |}.

(** The [Error]s the handlers throw, by message. *)
Inductive Error : Type :=
| RequiredArgs                       (* Both machine_id and title are required. *)
| UnknownMachine (machine_id : string)           (* Unknown machine_id '..'. *)
| EmptyCommand                                   (* Command cannot be empty. *)
| ConnectionNotFound (connection_id : option string)
                                             (* connection_id '..' not found. *)
| DangerousCommand
      (* Command contains potentially dangerous operations and is not allowed. *)
| UnknownTool (name : string)                            (* Unknown tool: .. *)
| Thrown (err : string).     (* an error of ssh2 or fs, passed on as it is *)

Definition render (o : option string) : string :=
  match o with Some s => s | None => "undefined" end.

Definition message (e : Error) : string :=
  match e with
  | RequiredArgs => "Both machine_id and title are required."
  | UnknownMachine id => "Unknown machine_id '" ++ id ++ "'."
  | EmptyCommand => "Command cannot be empty."
  | ConnectionNotFound id => "connection_id '" ++ render id ++ "' not found."
  | DangerousCommand =>
      "Command contains potentially dangerous operations and is not allowed."
  | UnknownTool name => "Unknown tool: " ++ name
  | Thrown err => err
  end.

(** The [arguments] object of a request; an absent field is [None]. *)
Record Args : Type := {
  arg_machine_id : option string;
  arg_title : option string;
  arg_connection_id : option string;
  arg_command : option string
}.

Definition no_args : Args :=
  {| arg_machine_id := None; arg_title := None;
     arg_connection_id := None; arg_command := None |}.

(** The fields of a session that the tools show. *)
Record SessionView : Type := {
  view_connection_id : string;
  view_machine_id : string;
  view_title : string;
  view_currentPath : string
}.

Definition view (c : ConnInfo.t) : SessionView :=
  {| view_connection_id := ConnInfo.connection_id c;
     view_machine_id := ConnInfo.machine_id c;
     view_title := ConnInfo.title c;
     view_currentPath := ConnInfo.currentPath c |}.

(** The payloads that are serialised into the [content] of a reply.  The
    iteration order of the [connections] map is not modelled: the reply of
    get_connections is kept as a finite map. *)
Inductive Response : Type :=
| Machines (ms : list (string * string * string * string))
| Created (s : SessionView)
| Connections (cs : gmap string SessionView)
| Executed (r : ExecResult)
| Closed.                                        (* { closed: true } *)

(* ================================================================== *)
(** * The server: handlers *)
(* ================================================================== *)

(** A handler runs on the state and either throws or returns; the state it
    leaves behind is kept in both cases. *)
Definition M (A : Type) : Type := State -> (Error + A) * State.

Definition ret {A : Type} (a : A) : M A := fun st => (inr a, st).

Definition throw {A : Type} (e : Error) : M A := fun st => (inl e, st).

Definition bind {A B : Type} (m : M A) (k : A -> M B) : M B :=
  fun st =>
    match m st with
    | (inl e, st') => (inl e, st')
    | (inr a, st') => k a st'
    end.

(** [try { m } catch (e) { h e }] *)
Definition catch {A : Type} (m : M A) (h : Error -> M A) : M A :=
  fun st =>
    match m st with
    | (inl e, st') => h e st'
    | (inr a, st') => (inr a, st')
    end.

Definition modify (f : State -> State) : M unit := fun st => (inr tt, f st).

Notation "'let!' x ':=' m 'in' k" := (bind m (fun x => k))
  (at level 10, x name, m at level 100, k at level 200).

Notation "'do!' m 'in' k" := (bind m (fun _ => k))
  (at level 10, m at level 100, k at level 200).

(** A value of a collaborator, or the error it raised passed on. *)
Definition settle {A : Type} (r : string + A) : Error + A :=
  match r with inl err => inl (Thrown err) | inr a => inr a end.

Definition set_connections (f : gmap string ConnInfo.t -> gmap string ConnInfo.t)
    (st : State) : State :=
  {| connections := f (connections st); uuids := uuids st;
     clients := clients st; calls := calls st |}.

Definition log (c : Call) (st : State) : State :=
  {| connections := connections st; uuids := uuids st;
     clients := clients st; calls := calls st ++ [c] |}.

(** [new SSHClient()] *)
Definition new_client : M nat :=
  fun st =>
    (inr (clients st),
     {| connections := connections st; uuids := uuids st;
        clients := S (clients st); calls := calls st |}).

(** [crypto.randomUUID()] *)
Definition draw_uuid (E : Env) : M string :=
  fun st =>
    (inr (randomUUID E (uuids st)),
     {| connections := connections st; uuids := S (uuids st);
        clients := clients st; calls := calls st |}).

(** JavaScript truthiness of a string that may be absent. *)
Definition truthy (o : option string) : bool :=
  match o with
  | Some s => negb (String.eqb s "")
  | None => false
  end.

Definition trim_string (s : string) : string :=
  string_of_list_ascii (trim (chars s)).

Definition findMachine (E : Env) (machine_id : string) : option Machine.t :=
  List.find (fun m => String.eqb (Machine.machine_id m) machine_id)
    (availableMachines E).

Definition buildSshConfig (E : Env) (m : Machine.t) : string + SshConfig :=
  let s := Machine.ssh_of m in
  let cfg key :=
    {| cfg_host := Machine.host s; cfg_port := Machine.port s;
       cfg_username := Machine.username s;
       cfg_password :=
         if truthy (Machine.password s) then Machine.password s else None;
       cfg_privateKey := key |} in
  match Machine.keyPath s with
  | Some path =>
      if truthy (Some path) then
        match readFileSync E path with
        | inl err => inl err
        | inr key => inr (cfg (Some key))
        end
      else inr (cfg None)
  | None => inr (cfg None)
  end.

(** [wrapExec(client, command)]: one [client.exec] call, then the promise
    settles as the transport decides. *)
Definition wrapExec (E : Env) (client : nat) (command : string)
  : M ExecResult :=
  fun st =>
    (settle (ssh_exec E (calls st) client command),
     log (CallExec client command) st).

(** [client.on("ready", ..).on("error", ..).connect(cfg)]: the event that
    answers. *)
Definition connect (E : Env) (client : nat) (cfg : SshConfig)
  : M (option string) :=
  fun st =>
    (inr (ssh_connect E (calls st) client cfg),
     log (CallConnect client cfg) st).

(** [client.end()] *)
Definition end_client (client : nat) : M unit := modify (log (CallEnd client)).

(** [connections.get(connection_id)] followed by the [if (!conn) throw]: the
    key that was found and the entry under it. *)
Definition get_connection (connection_id : option string)
  : M (string * ConnInfo.t) :=
  fun st =>
    match connection_id with
    | Some k =>
        match connections st !! k with
        | Some conn => (inr (k, conn), st)
        | None => (inl (ConnectionNotFound connection_id), st)
        end
    | None => (inl (ConnectionNotFound connection_id), st)
    end.

(** [!command?.trim()] *)
Definition blank (command : option string) : bool :=
  negb (truthy (option_map trim_string command)).

(** /^cd\\s+/ : in a regular expression literal the two backslashes are one
    escaped backslash, and the [s+] after it is the letter s. *)
Definition cd_pattern : regex :=
  cat [AssertStart; lit "cd"; Char "\"; Plus (Char "s")].

Definition set_currentPath (path : string) (c : ConnInfo.t) : ConnInfo.t :=
  {| ConnInfo.connection_id := ConnInfo.connection_id c;
     ConnInfo.machine_id := ConnInfo.machine_id c;
     ConnInfo.title := ConnInfo.title c;
     ConnInfo.currentPath := path;
     ConnInfo.client := ConnInfo.client c |}.

Definition get_available_connections (E : Env) : M Response :=
  ret (Machines
         (map (fun m => (Machine.machine_id m, Machine.label m, Machine.os m,
                         Machine.source m))
              (availableMachines E))).

Definition create_connection (E : Env) (args : Args) : M Response :=
  match arg_machine_id args, arg_title args with
  | Some machine_id, Some title =>
      if negb (truthy (Some machine_id)) || negb (truthy (Some title))
      then throw RequiredArgs
      else
        match findMachine E machine_id with
        | None => throw (UnknownMachine machine_id)
        | Some machine =>
            let! client := new_client in
            let! connection_id := draw_uuid E in
            let! cfg := (fun st => (settle (buildSshConfig E machine), st)) in
            let! event := connect E client cfg in
            match event with
            | Some err => throw (Thrown err)
            | None =>
                catch
                  (let! r := wrapExec E client "pwd" in
                   let connInfo :=
                     {| ConnInfo.connection_id := connection_id;
                        ConnInfo.machine_id := machine_id;
                        ConnInfo.title := title;
                        ConnInfo.currentPath := trim_string (stdout r);
                        ConnInfo.client := client |} in
                   do! modify (set_connections (insert connection_id connInfo))
                   in ret (Created (view connInfo)))
                  (fun e => do! end_client client in throw e)
            end
        end
  | _, _ => throw RequiredArgs
  end.

Definition get_connections : M Response :=
  fun st => (inr (Connections (view <$> connections st)), st).

Definition execute_command (E : Env) (args : Args) : M Response :=
  match arg_command args with
  | Some command =>
      if blank (Some command) then throw EmptyCommand
      else
        let! found := get_connection (arg_connection_id args) in
        let (k, conn) := found in
        let! r := wrapExec E (ConnInfo.client conn) command in
        do! (if test cd_pattern (trim (chars command))
             then
               let! cwd := wrapExec E (ConnInfo.client conn) "pwd" in
               modify (set_connections
                         (alter (set_currentPath (trim_string (stdout cwd))) k))
             else ret tt)
        in ret (Executed r)
  | None => throw EmptyCommand
  end.

Definition secure_execute_command (E : Env) (args : Args) : M Response :=
  match arg_command args with
  | Some command =>
      if blank (Some command) then throw EmptyCommand
      else
        let! found := get_connection (arg_connection_id args) in
        let (_, conn) := found in
        if isCommandDangerous command then throw DangerousCommand
        else
          let! r := wrapExec E (ConnInfo.client conn) command in
          ret (Executed r)
  | None => throw EmptyCommand
  end.

Definition close_connection (args : Args) : M Response :=
  let! found := get_connection (arg_connection_id args) in
  let (k, conn) := found in
  do! end_client (ConnInfo.client conn) in
  do! modify (set_connections (delete k)) in
  ret Closed.

(** The [CallToolRequestSchema] handler. *)
Definition call_tool (E : Env) (name : string) (args : Args) : M Response :=
  if String.eqb name "get_available_connections" then
    get_available_connections E
  else if String.eqb name "create_connection" then create_connection E args
  else if String.eqb name "get_connections" then get_connections
  else if String.eqb name "execute_command" then execute_command E args
  else if String.eqb name "secure_execute_command" then
    secure_execute_command E args
  else if String.eqb name "close_connection" then close_connection args
  else throw (UnknownTool name).

(** A sequence of requests handled one after the other; the outcomes are
    returned in order. *)
Fixpoint run (E : Env) (requests : list (string * Args)) (st : State)
  : list (Error + Response) * State :=
  match requests with
  | [] => ([], st)
  | (name, args) :: rest =>
      let (outcome, st') := call_tool E name args st in
      let (outcomes, st'') := run E rest st' in
      (outcome :: outcomes, st'')
  end.

(** The connection ids that successful create_connection calls returned. *)
Fixpoint created_ids (outcomes : list (Error + Response)) : list string :=
  match outcomes with
  | inr (Created v) :: rest => view_connection_id v :: created_ids rest
  | _ :: rest => created_ids rest
  | [] => []
  end.

(** The UUID source never returns the same value twice. *)
Definition fresh_ids (E : Env) : Prop :=
  forall i j : nat, randomUUID E i = randomUUID E j -> i = j.

(** The states the process can be in: those some sequence of requests leads
    to from the start. *)
Definition reachable (E : Env) (st : State) : Prop :=
  exists requests, st = snd (run E requests initial).

(** Every key of the registry is a UUID that was drawn. *)
Definition ids_drawn (E : Env) (st : State) : Prop :=
  forall k, is_Some (connections st !! k) ->
            exists i, i < uuids st /\ k = randomUUID E i.

(** The three tools that take a connection_id, called with a command that
    passes the emptiness check where there is one. *)
Definition references (name : string) (args : Args) (k : string) : Prop :=
  arg_connection_id args = Some k
  /\ ((name = "execute_command" /\ blank (arg_command args) = false)
      \/ (name = "secure_execute_command" /\ blank (arg_command args) = false)
      \/ name = "close_connection").

(* ================================================================== *)
(** * A concrete environment *)
(* ================================================================== *)

(** The first machine of the README's machines.json, a UUID source that
    counts, and a transport that always answers 'ready' and prints the home
    directory. *)
Definition demo_machine : Machine.t :=
  {| Machine.machine_id := "todo-server-01"; Machine.label := "Todo server";
     Machine.os := "ubuntu"; Machine.source := "digitalocean";
     Machine.ssh_of :=
       {| Machine.host := "192.168.1.11"; Machine.port := 22;
          Machine.username := "user";
          Machine.password := Some "your_password_here";
          Machine.keyPath := None |} |}.

Definition home_reply : ExecResult :=
  {| stdout := "/home/user"; stderr := ""; exitCode := Some 0%Z |}.

Definition demo_env : Env :=
  {| availableMachines := [demo_machine];
     randomUUID := fun n => pretty n;
     readFileSync := fun path => inl ("ENOENT: " +:+ path);
     ssh_connect := fun _ _ _ => None;
     ssh_exec := fun _ _ _ => inr home_reply |}.

(** The same, with a remote side that closes every channel request. *)
Definition broken_env : Env :=
  {| availableMachines := [demo_machine];
     randomUUID := fun n => pretty n;
     readFileSync := fun path => inl ("ENOENT: " +:+ path);
     ssh_connect := fun _ _ _ => None;
     ssh_exec := fun _ _ _ => inl "Channel open failure" |}.

Definition create_args (machine_id title : string) : Args :=
  {| arg_machine_id := Some machine_id; arg_title := Some title;
     arg_connection_id := None; arg_command := None |}.

Definition command_args (connection_id command : string) : Args :=
  {| arg_machine_id := None; arg_title := None;
     arg_connection_id := Some connection_id; arg_command := Some command |}.

Definition close_args (connection_id : string) : Args :=
  {| arg_machine_id := None; arg_title := None;
     arg_connection_id := Some connection_id; arg_command := None |}.

(** The entry that [demo_env] registers for the first session. *)
Definition demo_conn : ConnInfo.t :=
  {| ConnInfo.connection_id := "0";
     ConnInfo.machine_id := "todo-server-01";
     ConnInfo.title := "deploy";
     ConnInfo.currentPath := "/home/user";
     ConnInfo.client := 0 |}.

(** The state after one session on [demo_machine] has been opened. *)
Definition one_session : State :=
  snd (run demo_env [("create_connection", create_args "todo-server-01" "deploy")]
         initial).

(* ================================================================== *)
(** * The advertised tools, the exec stream and the shape of the state *)
(* ================================================================== *)

(** The fields an input schema can require. *)
Inductive Field : Type := FMachineId | FTitle | FConnectionId | FCommand.

Definition field (f : Field) (args : Args) : option string :=
  match f with
  | FMachineId => arg_machine_id args
  | FTitle => arg_title args
  | FConnectionId => arg_connection_id args
  | FCommand => arg_command args
  end.

(** The reply of the [ListToolsRequestSchema] handler: the name of each tool
    with the [required] list of its [inputSchema]. *)
Definition advertisedTools : list (string * list Field) :=
  [ ("get_available_connections", []);
    ("create_connection", [FMachineId; FTitle]);
    ("get_connections", []);
    ("execute_command", [FConnectionId; FCommand]);
    ("secure_execute_command", [FConnectionId; FCommand]);
    ("close_connection", [FConnectionId]) ].

(** What the stream of [client.exec] emits, in order of arrival: the chunks
    (after [data.toString()]) of the two "data" listeners and the "close"
    event with its code. *)
Inductive StreamEvent : Type :=
| OnData (data : string)
| OnStderrData (data : string)
| OnClose (code : option Z).

(** The listeners of [wrapExec] run over the events, from the values the
    variables [stdout] and [stderr] hold; [None] when no "close" arrives, in
    which case the promise stays pending. *)
Fixpoint wrapExec_listen (events : list StreamEvent) (out err : string)
  : option ExecResult :=
  match events with
  | [] => None
  | OnData data :: rest => wrapExec_listen rest (out +:+ data) err
  | OnStderrData data :: rest => wrapExec_listen rest out (err +:+ data)
  | OnClose code :: _ =>
      Some {| stdout := out; stderr := err; exitCode := code |}
  end.

(** The promise of [wrapExec]: [exec_err] is the [err] that [client.exec]
    hands to its callback ([None] when it hands a stream). *)
Definition wrapExec_promise (exec_err : option string)
    (events : list StreamEvent) : option (string + ExecResult) :=
  match exec_err with
  | Some e => Some (inl e)
  | None => option_map inr (wrapExec_listen events "" "")
  end.

(** The chunks of one of the two channels, joined in order. *)
Fixpoint joined (stderr_channel : bool) (events : list StreamEvent) : string :=
  match events with
  | [] => ""
  | OnData data :: rest =>
      if stderr_channel then joined stderr_channel rest
      else data +:+ joined stderr_channel rest
  | OnStderrData data :: rest =>
      if stderr_channel then data +:+ joined stderr_channel rest
      else joined stderr_channel rest
  | OnClose _ :: rest => joined stderr_channel rest
  end.

Definition is_close (e : StreamEvent) : bool :=
  match e with OnClose _ => true | _ => false end.

(** The client a call is made on. *)
Definition client_of (c : Call) : nat :=
  match c with
  | CallConnect h _ => h
  | CallExec h _ => h
  | CallEnd h => h
  end.

(** In a log of calls, no call is made on a client after [end()] was called
    on it. *)
Definition no_use_after_end (cs : list Call) : Prop :=
  forall l1 c l2, cs = l1 ++ c :: l2 -> ~ In (CallEnd (client_of c)) l1.

(** A client that was connected and not ended. *)
Definition live (cs : list Call) (h : nat) : Prop :=
  (exists cfg, In (CallConnect h cfg) cs) /\ ~ In (CallEnd h) cs.

(** The shape the handlers keep the state in. *)
Record consistent (st : State) : Prop := {
  (** every entry sits under its own connection_id *)
  keyed_by_id :
    forall k c, connections st !! k = Some c -> ConnInfo.connection_id c = k;
  (** two entries never share a client *)
  clients_exclusive :
    forall k1 k2 c1 c2,
      connections st !! k1 = Some c1 -> connections st !! k2 = Some c2 ->
      ConnInfo.client c1 = ConnInfo.client c2 -> k1 = k2;
  (** the client of an entry was connected and has not been ended *)
  entries_live :
    forall k c, connections st !! k = Some c ->
                live (calls st) (ConnInfo.client c);
  (** the clients in the log are clients that were constructed *)
  calls_known :
    forall c, In c (calls st) -> client_of c < clients st;
  calls_ordered : no_use_after_end (calls st)
}.

(** A client that was constructed and is not in the registry, nor ended. *)
Definition pending (st : State) (h : nat) : Prop :=
  h < clients st
  /\ (forall k c, connections st !! k = Some c -> ConnInfo.client c <> h)
  /\ ~ In (CallEnd h) (calls st).

(** The state after [new SSHClient()] and [crypto.randomUUID()]. *)
Definition construct (st : State) : State :=
  {| connections := connections st; uuids := S (uuids st);
     clients := S (clients st); calls := calls st |}.

(** The changes of state a request can make, read off the handlers. *)
Inductive transition (E : Env) (st : State) : State -> Prop :=
| StepNone : transition E st st
| StepExec k c command :
    connections st !! k = Some c ->
    transition E st (log (CallExec (ConnInfo.client c) command) st)
| StepExecProbeFailed k c command :
    connections st !! k = Some c ->
    transition E st
      (log (CallExec (ConnInfo.client c) "pwd")
         (log (CallExec (ConnInfo.client c) command) st))
| StepExecProbe k c command path :
    connections st !! k = Some c ->
    transition E st
      (set_connections (alter (set_currentPath path) k)
         (log (CallExec (ConnInfo.client c) "pwd")
            (log (CallExec (ConnInfo.client c) command) st)))
| StepClose k c :
    connections st !! k = Some c ->
    transition E st
      (set_connections (delete k) (log (CallEnd (ConnInfo.client c)) st))
| StepConstruct : transition E st (construct st)
| StepHandshakeFailed cfg :
    transition E st (log (CallConnect (clients st) cfg) (construct st))
| StepProbeFailed cfg :
    transition E st
      (log (CallEnd (clients st))
         (log (CallExec (clients st) "pwd")
            (log (CallConnect (clients st) cfg) (construct st))))
| StepCreated cfg conn :
    ConnInfo.client conn = clients st ->
    ConnInfo.connection_id conn = randomUUID E (uuids st) ->
    transition E st
      (set_connections (insert (randomUUID E (uuids st)) conn)
         (log (CallExec (clients st) "pwd")
            (log (CallConnect (clients st) cfg) (construct st)))).

(** Patterns without [$] and [\b]: their matches do not look at what comes
    after them. *)
Fixpoint forward_only (r : regex) : bool :=
  match r with
  | AssertEnd | WordBoundary => false
  | Seq r1 r2 | Alt r1 r2 => forward_only r1 && forward_only r2
  | Star r1 => forward_only r1
  | _ => true
  end.

(** A transport that rejects the pwd probe and resolves everything else. *)
Definition probe_fails_env : Env :=
  {| availableMachines := [demo_machine];
     randomUUID := fun n => pretty n;
     readFileSync := fun path => inl ("ENOENT: " +:+ path);
     ssh_connect := fun _ _ _ => None;
     ssh_exec := fun _ _ command =>
       if String.eqb command "pwd" then inl "Channel open failure"
       else inr home_reply |}.

(** A machine that authenticates with a key file, and an inventory with it
    on a file system that has no such file. *)
Definition key_machine : Machine.t :=
  {| Machine.machine_id := "build-agent-01";
     Machine.label := "CI Build Agent (Key Auth)";
     Machine.os := "ubuntu"; Machine.source := "aws";
     Machine.ssh_of :=
       {| Machine.host := "192.168.1.12"; Machine.port := 22;
          Machine.username := "ubuntu";
          Machine.password := None;
          Machine.keyPath := Some "/home/ubuntu/.ssh/id_rsa" |} |}.

Definition key_env : Env :=
  {| availableMachines := [demo_machine; key_machine];
     randomUUID := fun n => pretty n;
     readFileSync := fun path => inl ("ENOENT: " +:+ path);
     ssh_connect := fun _ _ _ => None;
     ssh_exec := fun _ _ _ => inr home_reply |}.

(** What [buildSshConfig] gives for [demo_machine]. *)
Definition demo_cfg : SshConfig :=
  {| cfg_host := "192.168.1.11"; cfg_port := 22; cfg_username := "user";
     cfg_password := Some "your_password_here"; cfg_privateKey := None |}.

(** The reply and the entry of a second session on [demo_machine]. *)
Definition second_view : SessionView :=
  {| view_connection_id := "1"; view_machine_id := "todo-server-01";
     view_title := "logs"; view_currentPath := "/home/user" |}.

Definition second_conn : ConnInfo.t :=
  {| ConnInfo.connection_id := "1";
     ConnInfo.machine_id := "todo-server-01";
     ConnInfo.title := "logs";
     ConnInfo.currentPath := "/home/user";
     ConnInfo.client := 1 |}.

(** The state with two sessions open, and the state after the only session
    of [one_session] was closed. *)
Definition two_sessions : State :=
  snd (run demo_env
         [("create_connection", create_args "todo-server-01" "deploy");
          ("create_connection", create_args "todo-server-01" "logs")]
         initial).

Definition closed_session : State :=
  snd (run demo_env
         [("create_connection", create_args "todo-server-01" "deploy");
          ("close_connection", close_args "0")]
         initial).

(* ================================================================== *)
(** * The classifier: properties *)
(* ================================================================== *)


(** The five [if]s of [isCommandDangerous] are one test of the allow list. *)
Lemma isCommandDangerous_unfold (command : string) :
  isCommandDangerous command =
  if matches_any allowPatterns (normalize command) then false
  else matches_any dangerousPatterns (normalize command).
Proof.
  unfold isCommandDangerous, matches_any, allowPatterns. cbn [existsb].
  repeat match goal with
         | |- context [test ?p (normalize command)] =>
             destruct (test p (normalize command)); cbn [orb]; try reflexivity
         end.
Qed.

(** Claim C3: a command whose normalized form matches an allow pattern is
    classified allowed, whatever deny patterns it also matches. *)
Theorem allow_list_wins (command : string) :
  matches_any allowPatterns (normalize command) = true ->
  isCommandDangerous command = false.
Proof.
  intros H. rewrite isCommandDangerous_unfold, H. reflexivity.
Qed.

Lemma allow_list_wins_witness :
  matches_any allowPatterns (normalize "git log | sh") = true
  /\ matches_any dangerousPatterns (normalize "git log | sh") = true
  /\ isCommandDangerous "git log | sh" = false.
Proof.
  split; [vm_compute; reflexivity|].
  split; [vm_compute; reflexivity|].
  apply (allow_list_wins "git log | sh"). vm_compute. reflexivity.
Defined.

(** Claim C4: a command whose normalized form matches neither list is
    classified allowed. *)
Theorem default_permit (command : string) :
  matches_any allowPatterns (normalize command) = false ->
  matches_any dangerousPatterns (normalize command) = false ->
  isCommandDangerous command = false.
Proof.
  intros Ha Hd. rewrite isCommandDangerous_unfold, Ha. exact Hd.
Qed.

Lemma default_permit_witness : isCommandDangerous "echo hello" = false.
Proof.
  apply (default_permit "echo hello"); vm_compute; reflexivity.
Defined.

(** Claim C5: the deny and allow coverage examples. *)
Theorem coverage_examples :
  isCommandDangerous "rm -rf /" = true
  /\ isCommandDangerous "sudo reboot" = true
  /\ isCommandDangerous "docker run ubuntu" = true
  /\ isCommandDangerous "kubectl delete pod x" = true
  /\ isCommandDangerous "systemctl status nginx" = false
  /\ isCommandDangerous "git log" = false
  /\ isCommandDangerous "kubectl get pods" = false.
Proof.
  repeat split; vm_compute; reflexivity.
Qed.

(** ** The matcher and the relation of matches *)

(** A match either consumes nothing and stays where it is, or leaves a
    shorter input. *)
Lemma Matches_progress r p s p' s' :
  Matches r p s p' s' -> (p' = p /\ s' = s) \/ length s' < length s.
Proof.
  induction 1; cbn [length]; try (left; split; reflexivity); try (right; lia);
    try assumption.
  - destruct IHMatches1 as [[-> ->] | H1]; [assumption|].
    destruct IHMatches2 as [[-> ->] | H2]; right; lia.
  - destruct IHMatches1 as [[-> ->] | H1]; [assumption|].
    destruct IHMatches2 as [[-> ->] | H2]; right; lia.
Qed.

Lemma step_char_true (ok : ascii -> bool) s k :
  step_char ok s k = true <->
  exists x t, s = x :: t /\ ok x = true /\ k (Some x) t = true.
Proof.
  destruct s as [|x t]; cbn [step_char].
  - split; [discriminate | intros (? & ? & ? & _); discriminate].
  - destruct (ok x) eqn:Hok; split.
    + intros Hk. exists x, t. auto.
    + intros (x' & t' & Heq & _ & Hk). congruence.
    + discriminate.
    + intros (x' & t' & Heq & Hx & _). congruence.
Qed.

Lemma matcher_star r prev s k :
  matcher (Star r) prev s k = star_loop r k (length s) prev s.
Proof. reflexivity. Qed.

Section Star.

Context (r : regex) (k : option ascii -> list ascii -> bool).

Hypothesis matcher_r :
  forall prev s k',
    matcher r prev s k' = true <->
    exists p' s', Matches r prev s p' s' /\ k' p' s' = true.

Lemma star_loop_sound fuel :
  forall prev s,
    star_loop r k fuel prev s = true ->
    exists p' s', Matches (Star r) prev s p' s' /\ k p' s' = true.
Proof.
  induction fuel as [|fuel IH]; intros prev s; cbn [star_loop].
  - intros Hk. exists prev, s. split; [constructor | exact Hk].
  - intros H. apply orb_true_iff in H as [H | Hk].
    + apply matcher_r in H as (p1 & s1 & Hm & Hrest).
      destruct (length s1 <? length s)%nat; [|discriminate].
      apply IH in Hrest as (p2 & s2 & Hstar & Hk).
      exists p2, s2. split; [econstructor; eassumption | exact Hk].
    + exists prev, s. split; [constructor | exact Hk].
Qed.

Lemma star_loop_complete prev s p' s' :
  Matches (Star r) prev s p' s' ->
  k p' s' = true ->
  forall fuel, length s <= fuel -> star_loop r k fuel prev s = true.
Proof.
  intros Hm Hk. remember (Star r) as sr eqn:Hsr.
  induction Hm as [| | | | | | | | | | | r0 p s
                   | r0 p s p1 s1 p2 s2 Hstep _ Hrest IH];
    try discriminate; injection Hsr as ->; intros fuel Hfuel.
  - destruct fuel; cbn [star_loop]; [exact Hk|].
    rewrite Hk. apply orb_true_r.
  - destruct (Matches_progress _ _ _ _ _ Hstep) as [[-> ->] | Hlt].
    + apply IH; [reflexivity | exact Hk | exact Hfuel].
    + destruct fuel as [|fuel]; [lia|]. cbn [star_loop].
      apply orb_true_iff. left. apply matcher_r. exists p1, s1.
      split; [exact Hstep|].
      apply Nat.ltb_lt in Hlt as Hlt'. rewrite Hlt'.
      apply IH; [reflexivity | exact Hk | lia].
Qed.

End Star.

(** The matcher finds exactly the matches of the relation. *)
Theorem matcher_Matches (r : regex) :
  forall prev s k,
    matcher r prev s k = true <->
    exists p' s', Matches r prev s p' s' /\ k p' s' = true.
Proof.
  induction r as [| c | | neg ranges | | | | | r1 IH1 r2 IH2 | r1 IH1 r2 IH2
                 | r IH]; intros prev s k.
  - cbn [matcher]. split.
    + intros Hk. exists prev, s. split; [constructor | exact Hk].
    + intros (p' & s' & Hm & Hk). inversion Hm; subst. exact Hk.
  - cbn [matcher]. rewrite step_char_true. split.
    + intros (x & t & -> & Hx & Hk). apply Ascii.eqb_eq in Hx as <-.
      exists (Some c), t. split; [constructor | exact Hk].
    + intros (p' & s' & Hm & Hk). inversion Hm; subst.
      exists c, s'. rewrite Ascii.eqb_refl. auto.
  - cbn [matcher]. rewrite step_char_true. split.
    + intros (x & t & -> & Hx & Hk). apply negb_true_iff in Hx.
      exists (Some x), t. split; [constructor; exact Hx | exact Hk].
    + intros (p' & s' & Hm & Hk). inversion Hm; subst.
      exists x, s'. rewrite negb_true_iff. auto.
  - cbn [matcher]. rewrite step_char_true. split.
    + intros (x & t & -> & Hx & Hk).
      exists (Some x), t. split; [constructor; exact Hx | exact Hk].
    + intros (p' & s' & Hm & Hk). inversion Hm; subst.
      exists x, s'. auto.
  - cbn [matcher]. rewrite step_char_true. split.
    + intros (x & t & -> & Hx & Hk).
      exists (Some x), t. split; [constructor; exact Hx | exact Hk].
    + intros (p' & s' & Hm & Hk). inversion Hm; subst.
      exists x, s'. auto.
  - cbn [matcher]. split.
    + destruct prev; [discriminate|]. intros Hk.
      exists None, s. split; [constructor | exact Hk].
    + intros (p' & s' & Hm & Hk). inversion Hm; subst. exact Hk.
  - cbn [matcher]. split.
    + destruct s; [|discriminate]. intros Hk.
      exists prev, []. split; [constructor | exact Hk].
    + intros (p' & s' & Hm & Hk). inversion Hm; subst. exact Hk.
  - cbn [matcher]. split.
    + destruct (at_boundary prev s) eqn:Hb; [|discriminate]. intros Hk.
      exists prev, s. split; [constructor; exact Hb | exact Hk].
    + intros (p' & s' & Hm & Hk). inversion Hm; subst.
      match goal with H : at_boundary _ _ = true |- _ => rewrite H end.
      exact Hk.
  - cbn [matcher]. rewrite IH1. split.
    + intros (p1 & s1 & H1 & H2). apply IH2 in H2 as (p2 & s2 & H2 & Hk).
      exists p2, s2. split; [econstructor; eassumption | exact Hk].
    + intros (p' & s' & Hm & Hk). inversion Hm; subst.
      do 2 eexists. split; [eassumption|]. apply IH2. eauto.
  - cbn [matcher]. rewrite orb_true_iff, IH1, IH2. split.
    + intros [(p' & s' & Hm & Hk) | (p' & s' & Hm & Hk)];
        exists p', s'; split; auto using MatchAltL, MatchAltR.
    + intros (p' & s' & Hm & Hk). inversion Hm; subst; eauto.
  - rewrite matcher_star. split.
    + apply star_loop_sound. exact IH.
    + intros (p' & s' & Hm & Hk).
      eapply star_loop_complete; eauto.
Qed.

(** [test] holds exactly when some position of the input starts a match. *)
Theorem test_Matches (r : regex) (s : list ascii) :
  test r s = true <->
  exists pre post p' s',
    s = pre ++ post /\ Matches r (last pre) post p' s'.
Proof.
  unfold test.
  assert (Hgen : forall s done,
             search r (last done) s = true <->
             exists pre post p' s',
               s = pre ++ post /\ Matches r (last (done ++ pre)) post p' s').
  { clear s. induction s as [|c s IH]; intros done; cbn [search].
    - rewrite orb_false_r. unfold matches_here. rewrite matcher_Matches.
      split.
      + intros (p' & s' & Hm & _). exists [], [], p', s'.
        split; [reflexivity|]. rewrite app_nil_r. exact Hm.
      + intros (pre & post & p' & s' & Heq & Hm).
        symmetry in Heq. apply app_eq_nil in Heq as [-> ->].
        rewrite app_nil_r in Hm. eauto.
    - rewrite orb_true_iff. unfold matches_here at 1. rewrite matcher_Matches.
      replace (Some c) with (last (done ++ [c])) by apply last_snoc.
      rewrite IH. split.
      + intros [(p' & s' & Hm & _) | (pre & post & p' & s' & -> & Hm)].
        * exists [], (c :: s), p', s'. split; [reflexivity|].
          rewrite app_nil_r. exact Hm.
        * exists (c :: pre), post, p', s'. split; [reflexivity|].
          rewrite <- app_assoc in Hm. exact Hm.
      + intros (pre & post & p' & s' & Heq & Hm).
        destruct pre as [|x pre].
        * left. cbn [app] in Heq. subst post.
          rewrite app_nil_r in Hm. eauto.
        * right. injection Heq as <- ->.
          exists pre, post, p', s'. split; [reflexivity|].
          rewrite <- app_assoc. exact Hm. }
  apply (Hgen s []).
Qed.

(** ** The matcher on literals, alternatives and the search *)

Lemma strip_Some (w s rest : list ascii) :
  strip w s = Some rest <-> s = w ++ rest.
Proof.
  revert s. induction w as [|c w IH]; intros s; simpl.
  - split; congruence.
  - destruct s as [|x t]; [split; discriminate|].
    destruct (Ascii.eqb_spec c x) as [->|Hne].
    + rewrite IH. split; congruence.
    + split; [discriminate | congruence].
Qed.

Lemma strip_app (w rest : list ascii) : strip w (w ++ rest) = Some rest.
Proof. apply strip_Some. reflexivity. Qed.

Lemma prev_after_cons (prev : option ascii) (c : ascii) (w : list ascii) :
  prev_after prev (c :: w) = prev_after (Some c) w.
Proof.
  unfold prev_after. destruct w as [|x w]; [reflexivity|].
  change (last (c :: x :: w)) with (last (x :: w)).
  destruct (last (x :: w)) eqn:Hl; [reflexivity|].
  apply last_None in Hl. discriminate.
Qed.

(** A run of literal characters matches exactly when the input starts with
    it. *)
Lemma matcher_lit_chars (w : list ascii) :
  forall prev s k,
    matcher (lit_chars w) prev s k =
    match strip w s with
    | Some rest => k (prev_after prev w) rest
    | None => false
    end.
Proof.
  induction w as [|c w IH]; intros prev s k; [reflexivity|].
  rewrite prev_after_cons.
  destruct w as [|c' w'].
  - simpl. destruct s as [|x t]; [reflexivity|]. simpl.
    destruct (Ascii.eqb_spec c x) as [->|]; reflexivity.
  - change (lit_chars (c :: c' :: w'))
      with (Seq (Char c) (lit_chars (c' :: w'))).
    cbn [matcher]. destruct s as [|x t]; [reflexivity|].
    cbn [step_char strip]. destruct (Ascii.eqb_spec c x) as [->|]; [|reflexivity].
    apply IH.
Qed.

Lemma matcher_alt (rs : list regex) prev s k :
  matcher (alt rs) prev s k = existsb (fun r => matcher r prev s k) rs.
Proof.
  induction rs as [|r rs IH].
  - simpl. destruct s; reflexivity.
  - destruct rs as [|r' rs'].
    + simpl. rewrite orb_false_r. reflexivity.
    + change (alt (r :: r' :: rs')) with (Alt r (alt (r' :: rs'))).
      cbn [matcher existsb]. rewrite IH. reflexivity.
Qed.

Lemma matcher_words (ws : list string) prev s k :
  matcher (words ws) prev s k = true <->
  exists w rest,
    In w ws /\ s = chars w ++ rest /\ k (prev_after prev (chars w)) rest = true.
Proof.
  unfold words. rewrite matcher_alt, existsb_exists. split.
  - intros (r & Hin & Hm). apply in_map_iff in Hin as (w & <- & Hw).
    unfold lit in Hm. rewrite matcher_lit_chars in Hm.
    destruct (strip (chars w) s) as [rest|] eqn:Hs; [|discriminate].
    apply strip_Some in Hs. eauto.
  - intros (w & rest & Hw & -> & Hk). exists (lit w). split.
    + apply in_map. exact Hw.
    + unfold lit. rewrite matcher_lit_chars, strip_app. exact Hk.
Qed.

(** [\s+] needs a whitespace character first. *)
Lemma matcher_ws1_inv prev s k :
  matcher ws1 prev s k = true ->
  exists c rest, s = c :: rest /\ is_space c = true.
Proof.
  unfold ws1, Plus. cbn [matcher]. destruct s as [|c rest]; [discriminate|].
  cbn [step_char]. destruct (is_space c) eqn:Hc; [eauto | discriminate].
Qed.



(** The keyword of the process pattern, after any text that does not end in
    a word character. *)
Lemma kill_keyword (pre post : list ascii) :
  word_before (last pre) = false ->
  occurs_at deny_kill pre (chars "kill " ++ post) = true.
Proof.
  intros Hb. unfold occurs_at, matches_here, deny_kill. cbn [cat matcher].
  unfold at_boundary. rewrite Hb. reflexivity.
Qed.

(** The same for the privilege-escalation pattern. *)
Lemma sudo_keyword (pre post : list ascii) :
  word_before (last pre) = false ->
  occurs_at deny_user pre (chars "sudo " ++ post) = true.
Proof.
  intros Hb. unfold occurs_at, matches_here, deny_user. cbn [cat matcher].
  unfold at_boundary. rewrite Hb. reflexivity.
Qed.









(** A match of the package deny pattern starts with one of the four tool
    names and a whitespace character right after it. *)
Lemma deny_package_shape (prev : option ascii) (s : list ascii) :
  matches_here deny_package prev s = true ->
  exists tool c rest,
    In tool ["apt"; "yum"; "dnf"; "pacman"]
    /\ is_space c = true
    /\ s = chars tool ++ c :: rest.
Proof.
  unfold matches_here, deny_package. cbn [cat matcher].
  destruct (at_boundary prev s); [|discriminate].
  intros H. apply matcher_words in H as (tool & rest & Hin & -> & Hk).
  cbn [matcher] in Hk.
  change (Seq WhiteSpace (Star WhiteSpace)) with ws1 in Hk.
  apply matcher_ws1_inv in Hk as (c & rest' & -> & Hc).
  exists tool, c, rest'. auto.
Qed.

Lemma deny_package_boundary (prev : option ascii) (s : list ascii) :
  matches_here deny_package prev s = true -> at_boundary prev s = true.
Proof.
  unfold matches_here, deny_package. cbn [cat matcher].
  destruct (at_boundary prev s); [reflexivity | discriminate].
Qed.

(** Where one of the four names is followed by a character that is not
    whitespace, the package deny pattern has no match. *)
Lemma package_name_needs_space (tool : string) (c : ascii)
    (rest : list ascii) (prev : option ascii) :
  In tool ["apt"; "yum"; "dnf"; "pacman"] ->
  is_space c = false ->
  matches_here deny_package prev (chars tool ++ c :: rest) = false.
Proof.
  intros Htool Hc.
  destruct (matches_here deny_package prev (chars tool ++ c :: rest)) eqn:Hm;
    [|reflexivity].
  apply deny_package_shape in Hm as (tool' & c' & rest' & Hin' & Hc' & Heq).
  cbn [In] in Htool, Hin'.
  destruct Htool as [<- | [<- | [<- | [<- | []]]]];
    destruct Hin' as [<- | [<- | [<- | [<- | []]]]];
    cbn in Heq; try discriminate Heq; injection Heq as -> _; congruence.
Qed.

(** A pattern that starts with [^] is tested at the start of the input
    only. *)
Lemma test_anchored (r : regex) (s : list ascii) :
  test (Seq AssertStart r) s = matches_here (Seq AssertStart r) None s.
Proof.
  assert (Hin : forall t x, search (Seq AssertStart r) (Some x) t = false).
  { induction t as [|y t IH]; intros x; cbn [search]; unfold matches_here;
      cbn [matcher]; [reflexivity | apply IH]. }
  unfold test. destruct s as [|x s]; cbn [search].
  - apply orb_false_r.
  - rewrite Hin. apply orb_false_r.
Qed.

(** No allow pattern matches an input that starts with one of the four
    names and a character that is not whitespace. *)
Lemma hyphenated_name_no_allow (tool : string) (c : ascii)
    (rest : list ascii) :
  In tool ["apt"; "yum"; "dnf"; "pacman"] ->
  is_space c = false ->
  matches_any allowPatterns (chars tool ++ c :: rest) = false.
Proof.
  intros Htool Hc. unfold matches_any, allowPatterns. cbn [existsb].
  unfold allow_systemctl, allow_git, allow_package, allow_docker,
    allow_kubectl. cbn [cat]. rewrite !test_anchored.
  assert (Hpkg : matches_here
            (Seq AssertStart
               (Seq (words ["apt"; "yum"; "dnf"; "pacman"])
                  (Seq ws1 (words ["list"; "search"; "show"; "info"; "query"]))))
            None (chars tool ++ c :: rest) = false).
  { unfold matches_here. cbn [matcher].
    match goal with |- ?m = false => destruct m eqn:Hm; [|reflexivity] end.
    apply matcher_words in Hm as (tool' & rest' & Hin' & Heq & Hk).
    cbn [matcher] in Hk.
    change (Seq WhiteSpace (Star WhiteSpace)) with ws1 in Hk.
    apply matcher_ws1_inv in Hk as (c' & rest'' & -> & Hc').
    cbn [In] in Htool, Hin'.
    destruct Htool as [<- | [<- | [<- | [<- | []]]]];
      destruct Hin' as [<- | [<- | [<- | [<- | []]]]];
      cbn in Heq; try discriminate Heq; injection Heq as -> _; congruence. }
  rewrite Hpkg. cbn [In] in Htool.
  destruct Htool as [<- | [<- | [<- | [<- | []]]]]; reflexivity.
Qed.

(** Claim C10, as the code has it: the package deny pattern matches only at
    a word boundary where apt, yum, dnf or pacman is followed at once by a
    whitespace character.  Where the name is followed by another character,
    as the hyphen of apt-get, it has no match at that name, and a command
    whose normalized form starts that way matches no allow pattern: it is
    denied exactly when a deny pattern matches somewhere in it.
    [apt-get install nginx] matches neither list and is allowed;
    [apt-get install gcc] is denied by the compiler pattern and
    [python3-apt install nginx] by the package pattern, at the apt after the
    hyphen. *)
Theorem apt_get_install_allowed :
  (forall prev s,
      matches_here deny_package prev s = true ->
      at_boundary prev s = true
      /\ exists tool c rest,
           In tool ["apt"; "yum"; "dnf"; "pacman"]
           /\ is_space c = true
           /\ s = chars tool ++ c :: rest)
  /\ (forall tool c rest prev,
         In tool ["apt"; "yum"; "dnf"; "pacman"] ->
         is_space c = false ->
         matches_here deny_package prev (chars tool ++ c :: rest) = false)
  /\ (forall command tool c rest,
         In tool ["apt"; "yum"; "dnf"; "pacman"] ->
         is_space c = false ->
         normalize command = chars tool ++ c :: rest ->
         matches_any allowPatterns (normalize command) = false
         /\ isCommandDangerous command
            = matches_any dangerousPatterns (normalize command))
  /\ (matches_any allowPatterns (normalize "apt-get install nginx") = false
      /\ matches_any dangerousPatterns (normalize "apt-get install nginx")
         = false
      /\ isCommandDangerous "apt-get install nginx" = false)
  /\ (test deny_compile (normalize "apt-get install gcc") = true
      /\ isCommandDangerous "apt-get install gcc" = true)
  /\ (test deny_package (normalize "python3-apt install nginx") = true
      /\ isCommandDangerous "python3-apt install nginx" = true).
Proof.
  split; [|split; [|split]].
  - intros prev s Hm. split;
      [exact (deny_package_boundary prev s Hm)
      | exact (deny_package_shape prev s Hm)].
  - intros tool c rest prev Htool Hc.
    apply package_name_needs_space; assumption.
  - intros command tool c rest Htool Hc Hnorm.
    assert (Hallow : matches_any allowPatterns (normalize command) = false).
    { rewrite Hnorm. apply hyphenated_name_no_allow; assumption. }
    split; [exact Hallow|].
    rewrite isCommandDangerous_unfold, Hallow. reflexivity.
  - repeat split; vm_compute; reflexivity.
Qed.

Lemma apt_get_install_allowed_witness :
  matches_any allowPatterns (normalize "apt-get install nginx") = false
  /\ isCommandDangerous "apt-get install nginx"
     = matches_any dangerousPatterns (normalize "apt-get install nginx").
Proof.
  apply (proj1 (proj2 (proj2 apt_get_install_allowed))
           "apt-get install nginx" "apt" "-"%char (chars "get install nginx")).
  - cbn; tauto.
  - vm_compute; reflexivity.
  - vm_compute; reflexivity.
Defined.

(** Against claim C10 as stated: two package installations through a
    hyphenated tool name that are denied, the second by the package pattern
    itself; no allow pattern matches either. *)
Lemma hyphenated_tool_denied :
  test deny_package (normalize "python3-apt install nginx") = true
  /\ matches_any allowPatterns (normalize "python3-apt install nginx") = false
  /\ isCommandDangerous "python3-apt install nginx" = true
  /\ matches_any allowPatterns (normalize "apt-get install gcc") = false
  /\ isCommandDangerous "apt-get install gcc" = true.
Proof.
  repeat split; vm_compute; reflexivity.
Qed.

(* ================================================================== *)
(** * The handlers: properties *)
(* ================================================================== *)

Lemma string_of_list_ascii_nil (l : list ascii) :
  string_of_list_ascii l = "" -> l = [].
Proof. destruct l; [reflexivity | discriminate]. Qed.

Lemma blank_Some (command : string) :
  blank (Some command) = true <-> trim (chars command) = [].
Proof.
  unfold blank, truthy, trim_string. cbn [option_map].
  rewrite negb_involutive. split.
  - intros H. apply String.eqb_eq in H.
    apply string_of_list_ascii_nil. exact H.
  - intros ->. reflexivity.
Qed.

(** A command the classifier denies is not empty after trimming. *)
Lemma dangerous_not_blank (command : string) :
  isCommandDangerous command = true -> blank (Some command) = false.
Proof.
  intros Hd. destruct (blank (Some command)) eqn:Hb; [|reflexivity].
  apply blank_Some in Hb. unfold isCommandDangerous, normalize in Hd.
  rewrite Hb in Hd. vm_compute in Hd. discriminate.
Qed.

(** [^] can only hold at the start of the input. *)
Lemma search_anchored_inside (r : regex) (s : list ascii) :
  forall c, search (Seq AssertStart r) (Some c) s = false.
Proof.
  induction s as [|x s IH]; intros c; cbn [search]; unfold matches_here;
    cbn [matcher]; [reflexivity|]. apply IH.
Qed.

(** The pattern of the directory probe matches exactly the inputs that
    start with the four characters c, d, backslash, s. *)
Lemma cd_pattern_spec (s : list ascii) :
  test cd_pattern s = true <-> exists rest, s = chars "cd\s" ++ rest.
Proof.
  unfold test, cd_pattern. cbn [cat].
  assert (Hhere : matches_here
            (Seq AssertStart (Seq (lit "cd") (Seq (Char "\") (Plus (Char "s")))))
            None s = true <-> exists rest, s = chars "cd\s" ++ rest).
  { unfold matches_here, Plus. cbn [matcher]. unfold lit.
    rewrite matcher_lit_chars. split.
    - destruct (strip (chars "cd") s) as [r1|] eqn:H1; [|discriminate].
      apply strip_Some in H1 as ->.
      destruct r1 as [|b r1]; [discriminate|]. cbn [step_char].
      destruct (Ascii.eqb_spec "\" b) as [<-|]; [|discriminate].
      destruct r1 as [|x r1]; [discriminate|]. cbn [step_char].
      destruct (Ascii.eqb_spec "s" x) as [<-|]; [|discriminate].
      intros _. exists r1. reflexivity.
    - intros [rest ->].
      change (chars "cd\s" ++ rest)
        with (chars "cd" ++ "\"%char :: "s"%char :: rest).
      rewrite strip_app. cbn [step_char]. rewrite !Ascii.eqb_refl.
      destruct (length rest); [reflexivity | apply orb_true_r]. }
  destruct s as [|x s]; cbn [search].
  - rewrite orb_false_r. exact Hhere.
  - rewrite search_anchored_inside, orb_false_r. exact Hhere.
Qed.

Section Handlers.

Context (E : Env).

(** Unfolds the plumbing of a handler. *)
Ltac run_handler :=
  unfold call_tool, create_connection, execute_command,
    secure_execute_command, close_connection, get_connections,
    get_available_connections, get_connection, wrapExec, connect,
    end_client, new_client, draw_uuid, modify, catch, bind, ret, throw;
  cbn [String.eqb Ascii.eqb Bool.eqb andb].

(** ** execute_command *)

(** What execute_command does on an open session with a command that is
    not blank: the command, then the directory probe when [cd_pattern]
    matches. *)
Lemma execute_command_open (st : State) (args : Args) (k command : string)
    (conn : ConnInfo.t) :
  arg_connection_id args = Some k ->
  arg_command args = Some command ->
  blank (Some command) = false ->
  connections st !! k = Some conn ->
  call_tool E "execute_command" args st =
  let client := ConnInfo.client conn in
  let st1 := log (CallExec client command) st in
  match ssh_exec E (calls st) client command with
  | inl err => (inl (Thrown err), st1)
  | inr r =>
      if test cd_pattern (trim (chars command)) then
        let st2 := log (CallExec client "pwd") st1 in
        match ssh_exec E (calls st1) client "pwd" with
        | inl err => (inl (Thrown err), st2)
        | inr cwd =>
            (inr (Executed r),
             set_connections
               (alter (set_currentPath (trim_string (stdout cwd))) k) st2)
        end
      else (inr (Executed r), st1)
  end.
Proof.
  intros Hk Hc Hb Hconn. run_handler. rewrite Hc, Hb, Hk, Hconn.
  cbn zeta. destruct (ssh_exec E (calls st) _ command); cbn [settle];
    [reflexivity|].
  destruct (test cd_pattern (trim (chars command))); [|reflexivity].
  destruct (ssh_exec E _ _ "pwd"); reflexivity.
Qed.

(** Claim C1, on the code: for [cd /tmp] the handler makes the one exec
    call of the command itself, sends no directory probe after it and
    leaves the registry, hence currentPath, as it was. *)
Theorem execute_cd_tmp_skips_probe (st : State) (args : Args) (k : string)
    (conn : ConnInfo.t) :
  arg_connection_id args = Some k ->
  arg_command args = Some "cd /tmp" ->
  connections st !! k = Some conn ->
  let st' := snd (call_tool E "execute_command" args st) in
  calls st' = calls st ++ [CallExec (ConnInfo.client conn) "cd /tmp"]
  /\ connections st' = connections st.
Proof.
  intros Hk Hc Hconn.
  rewrite (execute_command_open st args k "cd /tmp" conn Hk Hc eq_refl Hconn).
  cbn zeta.
  replace (test cd_pattern (trim (chars "cd /tmp"))) with false
    by (vm_compute; reflexivity).
  destruct (ssh_exec E (calls st) _ "cd /tmp"); split; reflexivity.
Qed.

(** A command that does not start with the pattern of the probe, as [ls],
    leaves the registry as it was. *)
Lemma execute_without_probe (st : State) (args : Args) (k command : string)
    (conn : ConnInfo.t) :
  arg_connection_id args = Some k ->
  arg_command args = Some command ->
  blank (Some command) = false ->
  connections st !! k = Some conn ->
  test cd_pattern (trim (chars command)) = false ->
  let st' := snd (call_tool E "execute_command" args st) in
  calls st' = calls st ++ [CallExec (ConnInfo.client conn) command]
  /\ connections st' = connections st.
Proof.
  intros Hk Hc Hb Hconn Hcd.
  rewrite (execute_command_open st args k command conn Hk Hc Hb Hconn).
  cbn zeta. rewrite Hcd.
  destruct (ssh_exec E (calls st) _ command); split; reflexivity.
Qed.

(** The probe is sent after a command that starts with c, d, a backslash
    and the letter s, and its trimmed output becomes the currentPath of
    the session. *)
Lemma execute_with_probe (st : State) (args : Args) (k command : string)
    (conn : ConnInfo.t) (rest : list ascii) (r cwd : ExecResult) :
  arg_connection_id args = Some k ->
  arg_command args = Some command ->
  connections st !! k = Some conn ->
  trim (chars command) = chars "cd\s" ++ rest ->
  let client := ConnInfo.client conn in
  ssh_exec E (calls st) client command = inr r ->
  ssh_exec E (calls st ++ [CallExec client command]) client "pwd" = inr cwd ->
  let st' := snd (call_tool E "execute_command" args st) in
  calls st' = calls st ++ [CallExec client command; CallExec client "pwd"]
  /\ connections st' !! k
     = Some (set_currentPath (trim_string (stdout cwd)) conn).
Proof.
  intros Hk Hc Hconn Htrim client Hr Hcwd.
  assert (Hb : blank (Some command) = false).
  { destruct (blank (Some command)) eqn:Hb; [|reflexivity].
    apply blank_Some in Hb. rewrite Hb in Htrim. discriminate. }
  rewrite (execute_command_open st args k command conn Hk Hc Hb Hconn).
  cbn zeta. fold client. rewrite Hr.
  replace (test cd_pattern (trim (chars command))) with true
    by (symmetry; apply cd_pattern_spec; eauto).
  cbn [log calls]. rewrite Hcwd. cbn [snd set_connections log calls connections].
  split.
  - rewrite <- app_assoc. reflexivity.
  - rewrite lookup_alter_eq, Hconn. reflexivity.
Qed.

(** ** secure_execute_command *)

(** Claim C2: a denied command on an existing connection makes
    secure_execute_command throw the policy error; the state is the one
    before the call, so no call reached the transport and no session
    changed. *)
Theorem secure_denied_no_transport (st : State) (args : Args)
    (k command : string) (conn : ConnInfo.t) :
  arg_connection_id args = Some k ->
  arg_command args = Some command ->
  connections st !! k = Some conn ->
  isCommandDangerous command = true ->
  call_tool E "secure_execute_command" args st = (inl DangerousCommand, st).
Proof.
  intros Hk Hc Hconn Hd. run_handler.
  rewrite Hc, (dangerous_not_blank command Hd), Hk, Hconn, Hd.
  reflexivity.
Qed.

(** ** create_connection *)

(** A missing or empty machine_id or title is refused before anything
    else is looked at. *)
Lemma create_requires_args (st : State) (args : Args) :
  truthy (arg_machine_id args) = false \/ truthy (arg_title args) = false ->
  call_tool E "create_connection" args st = (inl RequiredArgs, st).
Proof.
  run_handler. intros H.
  destruct (arg_machine_id args) as [m|], (arg_title args) as [t|];
    try reflexivity.
  destruct H as [-> | ->]; cbn [negb orb]; [reflexivity|].
  rewrite orb_true_r. reflexivity.
Qed.

Lemma create_unknown_machine (st : State) (args : Args) (m t : string) :
  arg_machine_id args = Some m ->
  arg_title args = Some t ->
  m <> "" -> t <> "" ->
  findMachine E m = None ->
  call_tool E "create_connection" args st = (inl (UnknownMachine m), st).
Proof.
  intros Hm Ht Hm0 Ht0 Hfind. run_handler. rewrite Hm, Ht, Hfind.
  unfold truthy.
  apply String.eqb_neq in Hm0. apply String.eqb_neq in Ht0.
  rewrite Hm0, Ht0. reflexivity.
Qed.

(** When the handshake succeeds and the first pwd fails, the handler ends
    the client it had connected and throws the error of the probe. *)
Lemma create_probe_failure (st : State) (args : Args) (m t : string)
    (machine : Machine.t) (cfg : SshConfig) (err : string) :
  arg_machine_id args = Some m ->
  arg_title args = Some t ->
  m <> "" -> t <> "" ->
  findMachine E m = Some machine ->
  buildSshConfig E machine = inr cfg ->
  let client := clients st in
  ssh_connect E (calls st) client cfg = None ->
  ssh_exec E (calls st ++ [CallConnect client cfg]) client "pwd" = inl err ->
  exists st',
    call_tool E "create_connection" args st = (inl (Thrown err), st')
    /\ calls st' = calls st ++ [CallConnect client cfg;
                                CallExec client "pwd"; CallEnd client]
    /\ connections st' = connections st.
Proof.
  intros Hm Ht Hm0 Ht0 Hfind Hcfg client Hready Hpwd. run_handler.
  rewrite Hm, Ht, Hfind. unfold truthy.
  apply String.eqb_neq in Hm0. apply String.eqb_neq in Ht0.
  rewrite Hm0, Ht0. cbn [negb orb]. rewrite Hcfg. subst client.
  cbn [settle log calls connections uuids clients].
  rewrite Hready. cbn [settle log calls connections uuids clients].
  rewrite Hpwd. cbn [settle].
  eexists. split; [reflexivity|]. cbn [log calls connections].
  split; [|reflexivity]. rewrite <- !app_assoc. reflexivity.
Qed.

(** When the handshake ends in an 'error' event the handler passes the
    error on; the connect call is the only call it has made. *)
Lemma create_handshake_failure (st : State) (args : Args) (m t : string)
    (machine : Machine.t) (cfg : SshConfig) (err : string) :
  arg_machine_id args = Some m ->
  arg_title args = Some t ->
  m <> "" -> t <> "" ->
  findMachine E m = Some machine ->
  buildSshConfig E machine = inr cfg ->
  ssh_connect E (calls st) (clients st) cfg = Some err ->
  exists st',
    call_tool E "create_connection" args st = (inl (Thrown err), st')
    /\ calls st' = calls st ++ [CallConnect (clients st) cfg]
    /\ connections st' = connections st.
Proof.
  intros Hm Ht Hm0 Ht0 Hfind Hcfg Herr. run_handler.
  rewrite Hm, Ht, Hfind. unfold truthy.
  apply String.eqb_neq in Hm0. apply String.eqb_neq in Ht0.
  rewrite Hm0, Ht0. cbn [negb orb]. rewrite Hcfg.
  cbn [settle log calls connections uuids clients].
  rewrite Herr. eexists. split; [reflexivity|]. split; reflexivity.
Qed.

(** Claim C6, as the code has it: an unknown machine_id given with a title
    (both not empty) is refused with the unknown-machine error and the
    state is untouched; an absent or empty machine_id or title is refused
    with the required-arguments error, the state untouched; when the
    handshake is answered by 'error', and when it is answered by 'ready'
    and the first pwd is rejected, nothing is inserted into the registry;
    and after the rejected pwd the client has been ended.  An 'error' that
    the client emits after 'ready' is not among these cases. *)
Theorem create_connection_failures :
  (forall st args m t,
      arg_machine_id args = Some m -> arg_title args = Some t ->
      m <> "" -> t <> "" -> findMachine E m = None ->
      call_tool E "create_connection" args st = (inl (UnknownMachine m), st))
  /\ (forall st args,
         truthy (arg_machine_id args) = false
         \/ truthy (arg_title args) = false ->
         call_tool E "create_connection" args st = (inl RequiredArgs, st))
  /\ (forall st args m t machine cfg err,
         arg_machine_id args = Some m -> arg_title args = Some t ->
         m <> "" -> t <> "" ->
         findMachine E m = Some machine ->
         buildSshConfig E machine = inr cfg ->
         ssh_connect E (calls st) (clients st) cfg = Some err ->
         exists st',
           call_tool E "create_connection" args st = (inl (Thrown err), st')
           /\ calls st' = calls st ++ [CallConnect (clients st) cfg]
           /\ connections st' = connections st)
  /\ (forall st args m t machine cfg err,
         arg_machine_id args = Some m -> arg_title args = Some t ->
         m <> "" -> t <> "" ->
         findMachine E m = Some machine ->
         buildSshConfig E machine = inr cfg ->
         ssh_connect E (calls st) (clients st) cfg = None ->
         ssh_exec E (calls st ++ [CallConnect (clients st) cfg])
           (clients st) "pwd" = inl err ->
         exists st',
           call_tool E "create_connection" args st = (inl (Thrown err), st')
           /\ calls st' = calls st ++ [CallConnect (clients st) cfg;
                                       CallExec (clients st) "pwd";
                                       CallEnd (clients st)]
           /\ connections st' = connections st).
Proof.
  split; [exact create_unknown_machine|].
  split; [exact create_requires_args|].
  split; [exact create_handshake_failure|].
  exact create_probe_failure.
Qed.

(** A create_connection that returns has registered the session under the
    UUID it drew. *)
Lemma create_success (st st' : State) (args : Args) (v : SessionView) :
  call_tool E "create_connection" args st = (inr (Created v), st') ->
  view_connection_id v = randomUUID E (uuids st)
  /\ uuids st' = S (uuids st)
  /\ exists conn,
       view conn = v
       /\ connections st' = <[view_connection_id v := conn]> (connections st).
Proof.
  run_handler. intros H.
  repeat (case_match; simplify_eq; cbn [settle] in * ).
  cbn. eauto.
Qed.

(** ** close_connection and the lookups after it *)

Lemma close_absent (st : State) (args : Args) (k : string) :
  arg_connection_id args = Some k ->
  connections st !! k = None ->
  call_tool E "close_connection" args st
  = (inl (ConnectionNotFound (Some k)), st).
Proof. intros Hk Hnone. run_handler. rewrite Hk, Hnone. reflexivity. Qed.

Lemma close_present (st : State) (args : Args) (k : string)
    (conn : ConnInfo.t) :
  arg_connection_id args = Some k ->
  connections st !! k = Some conn ->
  call_tool E "close_connection" args st
  = (inr Closed,
     set_connections (delete k) (log (CallEnd (ConnInfo.client conn)) st)).
Proof. intros Hk Hconn. run_handler. rewrite Hk, Hconn. reflexivity. Qed.

(** The three tools that look a connection up throw the not-found error,
    and do nothing else, when the id is not a key of the registry. *)
Lemma absent_not_found (st : State) (name : string) (args : Args)
    (k : string) :
  references name args k ->
  connections st !! k = None ->
  call_tool E name args st = (inl (ConnectionNotFound (Some k)), st).
Proof.
  intros [Hk [[-> Hb] | [[-> Hb] | ->]]] Hnone; run_handler.
  - destruct (arg_command args) as [c|]; [|discriminate].
    rewrite Hb, Hk, Hnone. reflexivity.
  - destruct (arg_command args) as [c|]; [|discriminate].
    rewrite Hb, Hk, Hnone. reflexivity.
  - rewrite Hk, Hnone. reflexivity.
Qed.

(** ** One request: UUIDs drawn and keys of the registry *)

Lemma call_tool_step (name : string) (args : Args) (st : State) :
  let st' := snd (call_tool E name args st) in
  uuids st <= uuids st'
  /\ forall k, is_Some (connections st' !! k) ->
               is_Some (connections st !! k)
               \/ (k = randomUUID E (uuids st) /\ uuids st' = S (uuids st)).
Proof.
  run_handler.
  repeat (case_match; simplify_eq; cbn [settle] in * );
    cbn [snd log set_connections connections uuids];
    (split; [lia|]); intros k' Hk'; auto.
  - apply lookup_insert_is_Some in Hk' as [<- | [_ ?]]; auto.
  - apply lookup_alter_is_Some in Hk'. auto.
  - apply lookup_delete_is_Some in Hk' as [_ ?]. auto.
Qed.

Lemma call_tool_created (name : string) (args : Args) (st st' : State)
    (v : SessionView) :
  call_tool E name args st = (inr (Created v), st') ->
  view_connection_id v = randomUUID E (uuids st)
  /\ uuids st' = S (uuids st).
Proof.
  run_handler. intros H.
  repeat (case_match; simplify_eq; cbn [settle] in * ).
  cbn. auto.
Qed.

(** ** Sequences of requests *)

Lemma run_cons (name : string) (args : Args) (rest : list (string * Args))
    (st : State) :
  run E ((name, args) :: rest) st
  = (fst (call_tool E name args st)
       :: fst (run E rest (snd (call_tool E name args st))),
     snd (run E rest (snd (call_tool E name args st)))).
Proof.
  cbn [run]. destruct (call_tool E name args st) as [out st1].
  cbn [fst snd]. destruct (run E rest st1) as [outs st2]. reflexivity.
Qed.

Lemma run_app (r1 r2 : list (string * Args)) (st : State) :
  snd (run E (r1 ++ r2) st) = snd (run E r2 (snd (run E r1 st))).
Proof.
  revert st. induction r1 as [|[name args] r1 IH]; intros st;
    [reflexivity|].
  rewrite <- app_comm_cons, !run_cons. cbn [snd]. apply IH.
Qed.

Lemma run_uuids (requests : list (string * Args)) (st : State) :
  uuids st <= uuids (snd (run E requests st)).
Proof.
  revert st. induction requests as [|[name args] rest IH]; intros st;
    [reflexivity|].
  rewrite run_cons. cbn [snd].
  pose proof (call_tool_step name args st) as [Hle _].
  etrans; [exact Hle | apply IH].
Qed.

(** The keys of the registry are drawn UUIDs, in every state the process
    reaches. *)
Lemma call_tool_ids_drawn (name : string) (args : Args) (st : State) :
  ids_drawn E st -> ids_drawn E (snd (call_tool E name args st)).
Proof.
  intros Hinv k Hk.
  pose proof (call_tool_step name args st) as [Hle Hkeys].
  destruct (Hkeys k Hk) as [Hold | [-> Hnew]].
  - destruct (Hinv k Hold) as (i & Hi & ->). exists i. split; [lia | done].
  - exists (uuids st). split; [lia | done].
Qed.

Lemma run_ids_drawn (requests : list (string * Args)) (st : State) :
  ids_drawn E st -> ids_drawn E (snd (run E requests st)).
Proof.
  revert st. induction requests as [|[name args] rest IH]; intros st Hinv;
    [exact Hinv|].
  rewrite run_cons. cbn [snd]. apply IH, call_tool_ids_drawn, Hinv.
Qed.

Lemma reachable_ids_drawn (st : State) : reachable E st -> ids_drawn E st.
Proof.
  intros [requests ->]. apply run_ids_drawn.
  intros k [c Hc]. cbn in Hc. rewrite lookup_empty in Hc. discriminate.
Qed.

(** An id that was drawn and is not a key stays out of the registry, as
    long as the UUID source does not repeat itself. *)
Lemma call_tool_stays_absent (name : string) (args : Args) (st : State)
    (i : nat) :
  fresh_ids E ->
  i < uuids st ->
  connections st !! randomUUID E i = None ->
  connections (snd (call_tool E name args st)) !! randomUUID E i = None.
Proof.
  intros Hfresh Hi Hnone.
  pose proof (call_tool_step name args st) as [_ Hkeys].
  destruct (connections (snd (call_tool E name args st)) !! randomUUID E i)
    as [c|] eqn:Hc; [|reflexivity].
  destruct (Hkeys (randomUUID E i) (mk_is_Some _ _ Hc)) as [[c' Hold] | [Heq _]].
  - congruence.
  - apply Hfresh in Heq. lia.
Qed.

Lemma run_stays_absent (requests : list (string * Args)) (st : State)
    (i : nat) :
  fresh_ids E ->
  i < uuids st ->
  connections st !! randomUUID E i = None ->
  connections (snd (run E requests st)) !! randomUUID E i = None.
Proof.
  intros Hfresh. revert st.
  induction requests as [|[name args] rest IH]; intros st Hi Hnone;
    [exact Hnone|].
  rewrite run_cons. cbn [snd]. apply IH.
  - pose proof (call_tool_step name args st) as [Hle _]. lia.
  - apply call_tool_stays_absent; assumption.
Qed.

(** Claim C7, as the code has it: closing an id that is not a key throws
    the not-found error and changes nothing; closing a key ends the client
    of the session and deletes the entry; and from then on, whatever
    requests come in between, execute_command and secure_execute_command
    with a command that is not blank, and close_connection, throw the
    not-found error for that id (the UUID source not repeating itself). *)
Theorem close_connection_removes :
  (forall st args k,
      arg_connection_id args = Some k ->
      connections st !! k = None ->
      call_tool E "close_connection" args st
      = (inl (ConnectionNotFound (Some k)), st))
  /\ (forall st args k conn,
         arg_connection_id args = Some k ->
         connections st !! k = Some conn ->
         call_tool E "close_connection" args st
         = (inr Closed,
            set_connections (delete k)
              (log (CallEnd (ConnInfo.client conn)) st)))
  /\ (forall st args k conn later name args',
         fresh_ids E ->
         reachable E st ->
         arg_connection_id args = Some k ->
         connections st !! k = Some conn ->
         references name args' k ->
         let closed := snd (call_tool E "close_connection" args st) in
         let st' := snd (run E later closed) in
         call_tool E name args' st'
         = (inl (ConnectionNotFound (Some k)), st')).
Proof.
  split; [exact close_absent|]. split; [exact close_present|].
  intros st args k conn later name args' Hfresh Hreach Hk Hconn Href.
  cbn zeta. apply absent_not_found; [exact Href|].
  destruct (reachable_ids_drawn st Hreach k (mk_is_Some _ _ Hconn))
    as (i & Hi & ->).
  apply run_stays_absent; [exact Hfresh | |];
    rewrite (close_present st args _ conn Hk Hconn); cbn; [exact Hi|].
  apply lookup_delete_eq.
Qed.

(** ** The ids of the sessions *)

Lemma run_created_ids (requests : list (string * Args)) :
  forall st,
    exists idxs : list nat,
      created_ids (fst (run E requests st)) = randomUUID E <$> idxs
      /\ Forall (fun i => uuids st <= i) idxs
      /\ NoDup idxs.
Proof.
  induction requests as [|[name args] rest IH]; intros st.
  - exists []. cbn. split; [reflexivity|]. split; constructor.
  - rewrite run_cons. cbn [fst].
    pose proof (call_tool_step name args st) as [Hle _]. cbn zeta in Hle.
    destruct (IH (snd (call_tool E name args st)))
      as (idxs & Hids & Hge & Hnd).
    assert (Hge' : Forall (fun i => uuids st <= i) idxs).
    { eapply Forall_impl; [exact Hge|]. cbn. intros i Hi. lia. }
    destruct (call_tool E name args st) as [out st1] eqn:Hcall.
    cbn [fst snd] in *.
    destruct out as [e | [ms | v | cs | r |]];
      try solve [exists idxs; cbn [created_ids]; auto].
    apply call_tool_created in Hcall as [Hid Hnext].
    exists (uuids st :: idxs). cbn [created_ids].
    split; [rewrite Hid, Hids; reflexivity|].
    split; [constructor; [lia | exact Hge']|].
    apply NoDup_cons. split; [|exact Hnd].
    intros Hin. rewrite Forall_forall in Hge.
    specialize (Hge _ Hin). lia.
Qed.

(** Claim C8: with a UUID source that does not repeat itself, the
    connection ids that create_connection returns in the life of the
    process are pairwise distinct, whatever was closed in between. *)
Theorem connection_ids_unique (requests : list (string * Args)) :
  fresh_ids E ->
  NoDup (created_ids (fst (run E requests initial))).
Proof.
  intros Hfresh.
  destruct (run_created_ids requests initial) as (idxs & -> & _ & Hnd).
  apply NoDup_fmap_2; [exact Hfresh | exact Hnd].
Qed.

End Handlers.

(* ================================================================== *)
(** * The properties on the concrete environment *)
(* ================================================================== *)

Lemma demo_env_fresh : fresh_ids demo_env.
Proof.
  intros i j H. cbn [randomUUID demo_env] in H.
  exact (inj (pretty : nat -> string) _ _ H).
Qed.

Lemma one_session_reachable : reachable demo_env one_session.
Proof.
  exists [("create_connection", create_args "todo-server-01" "deploy")].
  reflexivity.
Qed.

Lemma one_session_lookup : connections one_session !! "0" = Some demo_conn.
Proof. vm_compute. reflexivity. Qed.

Lemma execute_cd_tmp_skips_probe_witness :
  let st' := snd (call_tool demo_env "execute_command"
                    (command_args "0" "cd /tmp") one_session) in
  calls st' = calls one_session ++ [CallExec 0 "cd /tmp"]
  /\ connections st' = connections one_session.
Proof.
  apply (execute_cd_tmp_skips_probe demo_env one_session
           (command_args "0" "cd /tmp") "0" demo_conn).
  - reflexivity.
  - reflexivity.
  - vm_compute. reflexivity.
Defined.

Lemma secure_denied_no_transport_witness :
  call_tool demo_env "secure_execute_command" (command_args "0" "rm -rf /")
    one_session
  = (inl DangerousCommand, one_session).
Proof.
  apply (secure_denied_no_transport demo_env one_session
           (command_args "0" "rm -rf /") "0" "rm -rf /" demo_conn).
  - reflexivity.
  - reflexivity.
  - vm_compute. reflexivity.
  - vm_compute. reflexivity.
Defined.

(** Against claim C6 as stated: [ghost] is not in the inventory, and with an
    empty title the error is the one about required arguments, not the one
    about the unknown machine. *)
Lemma create_connection_empty_title :
  findMachine demo_env "ghost" = None
  /\ call_tool demo_env "create_connection" (create_args "ghost" "") initial
     = (inl RequiredArgs, initial)
  /\ RequiredArgs <> UnknownMachine "ghost".
Proof.
  split; [reflexivity|]. split; [reflexivity | discriminate].
Qed.

Lemma create_connection_failures_witness :
  call_tool demo_env "create_connection" (create_args "ghost" "deploy") initial
  = (inl (UnknownMachine "ghost"), initial)
  /\ exists st',
       call_tool broken_env "create_connection"
         (create_args "todo-server-01" "deploy") initial
       = (inl (Thrown "Channel open failure"), st')
       /\ calls st'
          = calls initial
              ++ [CallConnect 0
                    {| cfg_host := "192.168.1.11"; cfg_port := 22;
                       cfg_username := "user";
                       cfg_password := Some "your_password_here";
                       cfg_privateKey := None |};
                  CallExec 0 "pwd"; CallEnd 0]
       /\ connections st' = connections initial.
Proof.
  split.
  - apply (proj1 (create_connection_failures demo_env) initial
             (create_args "ghost" "deploy") "ghost" "deploy").
    + reflexivity.
    + reflexivity.
    + discriminate.
    + discriminate.
    + reflexivity.
  - apply (proj2 (proj2 (proj2 (create_connection_failures broken_env)))
             initial (create_args "todo-server-01" "deploy")
             "todo-server-01" "deploy" demo_machine).
    + reflexivity.
    + reflexivity.
    + discriminate.
    + discriminate.
    + reflexivity.
    + reflexivity.
    + reflexivity.
    + reflexivity.
Defined.

(** Against claim C7 as stated: after the session "0" has been closed, an
    execute_command with that id and an empty command throws the error
    about the empty command, not the not-found error. *)
Lemma closed_then_empty_command :
  let closed :=
    snd (call_tool demo_env "close_connection" (close_args "0") one_session) in
  connections closed !! "0" = None
  /\ call_tool demo_env "execute_command" (command_args "0" "") closed
     = (inl EmptyCommand, closed)
  /\ EmptyCommand <> ConnectionNotFound (Some "0").
Proof.
  cbn zeta. split; [vm_compute; reflexivity|].
  split; [reflexivity | discriminate].
Qed.

Lemma close_connection_removes_witness :
  let closed :=
    snd (call_tool demo_env "close_connection" (close_args "0") one_session) in
  let st' :=
    snd (run demo_env
           [("create_connection", create_args "todo-server-01" "again")]
           closed) in
  call_tool demo_env "execute_command" (command_args "0" "ls") st'
  = (inl (ConnectionNotFound (Some "0")), st').
Proof.
  apply (proj2 (proj2 (close_connection_removes demo_env))
           one_session (close_args "0") "0" demo_conn
           [("create_connection", create_args "todo-server-01" "again")]
           "execute_command" (command_args "0" "ls")).
  - exact demo_env_fresh.
  - exact one_session_reachable.
  - reflexivity.
  - vm_compute. reflexivity.
  - split; [reflexivity|]. left. split; [reflexivity|].
    vm_compute. reflexivity.
Defined.

Lemma connection_ids_unique_witness :
  NoDup (created_ids
           (fst (run demo_env
                   [("create_connection", create_args "todo-server-01" "a");
                    ("close_connection", close_args "0");
                    ("create_connection", create_args "todo-server-01" "b")]
                   initial))).
Proof.
  apply (connection_ids_unique demo_env
           [("create_connection", create_args "todo-server-01" "a");
            ("close_connection", close_args "0");
            ("create_connection", create_args "todo-server-01" "b")]).
  exact demo_env_fresh.
Defined.

(* ================================================================== *)
(** * The classifier: letter case, padding and text after a match *)
(* ================================================================== *)

Lemma is_space_lower_char (c : ascii) : is_space (lower_char c) = is_space c.
Proof.
  destruct c as [[] [] [] [] [] [] [] []]; vm_compute; reflexivity.
Qed.

Lemma trimStart_toLowerCase (s : list ascii) :
  trimStart (toLowerCase s) = toLowerCase (trimStart s).
Proof.
  induction s as [|c s IH]; [reflexivity|].
  cbn [toLowerCase map trimStart]. rewrite is_space_lower_char.
  destruct (is_space c); [exact IH | reflexivity].
Qed.

(** Trimming and lower-casing commute. *)
Lemma trim_toLowerCase (s : list ascii) :
  trim (toLowerCase s) = toLowerCase (trim s).
Proof.
  unfold trim, trimEnd. rewrite trimStart_toLowerCase.
  unfold toLowerCase at 1. rewrite <- map_rev.
  fold (toLowerCase (rev (trimStart s))).
  rewrite trimStart_toLowerCase. unfold toLowerCase. rewrite map_rev.
  reflexivity.
Qed.

Lemma trimStart_padding (pad s : list ascii) :
  forallb is_space pad = true -> trimStart (pad ++ s) = trimStart s.
Proof.
  induction pad as [|c pad IH]; [reflexivity|].
  cbn [forallb app trimStart]. intros H. apply andb_true_iff in H as [-> H].
  apply IH, H.
Qed.

Lemma trimEnd_padding (s pad : list ascii) :
  forallb is_space pad = true -> trimEnd (s ++ pad) = trimEnd s.
Proof.
  intros H. unfold trimEnd. rewrite rev_app_distr, trimStart_padding;
    [reflexivity|].
  rewrite forallb_forall in *. intros x Hx. apply H.
  apply in_rev. exact Hx.
Qed.

Lemma trim_padding (pad1 s pad2 : list ascii) :
  forallb is_space pad1 = true ->
  forallb is_space pad2 = true ->
  trim (pad1 ++ s ++ pad2) = trim s.
Proof.
  intros H1 H2. unfold trim. rewrite (trimStart_padding pad1 _ H1).
  induction s as [|c s IH].
  - cbn [app]. rewrite <- (app_nil_r pad2), (trimStart_padding pad2 [] H2).
    reflexivity.
  - cbn [app trimStart]. destruct (is_space c); [exact IH|].
    apply (trimEnd_padding (c :: s) pad2 H2).
Qed.

(** The verdict depends on the command only through its trimmed,
    lower-cased form. *)
Lemma isCommandDangerous_normalize (c1 c2 : string) :
  normalize c1 = normalize c2 ->
  isCommandDangerous c1 = isCommandDangerous c2.
Proof.
  intros H. rewrite !isCommandDangerous_unfold, H. reflexivity.
Qed.

(** Whitespace around a command and the case of its letters do not change
    the verdict. *)
Theorem verdict_ignores_case_and_padding (pad1 s1 pad2 s2 : list ascii) :
  forallb is_space pad1 = true ->
  forallb is_space pad2 = true ->
  toLowerCase s1 = toLowerCase s2 ->
  isCommandDangerous (string_of_list_ascii (pad1 ++ s1 ++ pad2))
  = isCommandDangerous (string_of_list_ascii s2).
Proof.
  intros H1 H2 Hcase. apply isCommandDangerous_normalize.
  unfold normalize, chars. rewrite !list_ascii_of_string_of_list_ascii.
  rewrite (trim_padding pad1 s1 pad2 H1 H2).
  rewrite <- !trim_toLowerCase, Hcase. reflexivity.
Qed.

Lemma verdict_ignores_case_and_padding_witness :
  isCommandDangerous "  RM -Rf / " = isCommandDangerous "rm -rf /".
Proof.
  apply (verdict_ignores_case_and_padding
           (chars "  ") (chars "RM -Rf /") (chars " ") (chars "rm -rf /"));
    vm_compute; reflexivity.
Defined.

(** A match of a pattern without [$] and [\b] stays a match when text is
    added at the end of the input. *)
Lemma Matches_extend r p s p' s' :
  Matches r p s p' s' ->
  forward_only r = true ->
  forall rest, Matches r p (s ++ rest) p' (s' ++ rest).
Proof.
  induction 1; cbn [forward_only]; intros Hf rest;
    try discriminate; try (rewrite <- ?app_comm_cons; constructor; assumption).
  - apply andb_true_iff in Hf as [Hf1 Hf2].
    econstructor; [apply IHMatches1 | apply IHMatches2]; assumption.
  - apply andb_true_iff in Hf as [Hf1 _]. apply MatchAltL, IHMatches, Hf1.
  - apply andb_true_iff in Hf as [_ Hf2]. apply MatchAltR, IHMatches, Hf2.
  - econstructor; [apply IHMatches1 | apply IHMatches2]; assumption.
Qed.

Lemma test_extend (r : regex) (s rest : list ascii) :
  forward_only r = true -> test r s = true -> test r (s ++ rest) = true.
Proof.
  intros Hf Ht. apply test_Matches in Ht as (pre & post & p' & s' & -> & Hm).
  apply test_Matches. exists pre, (post ++ rest), p', (s' ++ rest).
  split; [symmetry; apply app_assoc|].
  apply Matches_extend; assumption.
Qed.

(** Whatever is written after a command that an allow pattern matches, the
    command stays allowed. *)
Theorem allowed_start_stays_allowed (c1 c2 : string) (rest : list ascii) :
  matches_any allowPatterns (normalize c1) = true ->
  normalize c2 = normalize c1 ++ rest ->
  isCommandDangerous c2 = false.
Proof.
  intros Hallow Hext. rewrite isCommandDangerous_unfold.
  replace (matches_any allowPatterns (normalize c2)) with true; [reflexivity|].
  symmetry. unfold matches_any in *.
  apply existsb_exists in Hallow as (p & Hin & Ht).
  apply existsb_exists. exists p. split; [exact Hin|].
  rewrite Hext. apply test_extend; [|exact Ht].
  cbn [allowPatterns In] in Hin.
  repeat (destruct Hin as [<- | Hin]; [vm_compute; reflexivity|]).
  destruct Hin.
Qed.

Lemma allowed_start_stays_allowed_witness :
  isCommandDangerous "git log; rm -rf /" = false.
Proof.
  apply (allowed_start_stays_allowed "git log" "git log; rm -rf /"
           (chars "; rm -rf /")); vm_compute; reflexivity.
Defined.

(* ================================================================== *)
(** * The stream of [wrapExec] *)
(* ================================================================== *)

Lemma append_empty_r (s : string) : s +:+ "" = s.
Proof.
  induction s as [|c s IH]; [reflexivity|].
  change (String c s +:+ "") with (String c (s +:+ "")). rewrite IH.
  reflexivity.
Qed.

Lemma append_assoc' (s1 s2 s3 : string) :
  (s1 +:+ s2) +:+ s3 = s1 +:+ (s2 +:+ s3).
Proof.
  induction s1 as [|c s1 IH]; [reflexivity|].
  change (String c s1 +:+ s2) with (String c (s1 +:+ s2)).
  change (String c (s1 +:+ s2) +:+ s3) with (String c ((s1 +:+ s2) +:+ s3)).
  rewrite IH. reflexivity.
Qed.

Lemma wrapExec_listen_closed (before : list StreamEvent) :
  forall out err code later,
    existsb is_close before = false ->
    wrapExec_listen (before ++ OnClose code :: later) out err
    = Some {| stdout := out +:+ joined false before;
              stderr := err +:+ joined true before;
              exitCode := code |}.
Proof.
  induction before as [|[data | data | code'] before IH];
    intros out err code later Hnc; cbn [app wrapExec_listen joined].
  - rewrite !append_empty_r. reflexivity.
  - rewrite (IH _ _ _ _ Hnc), append_assoc'. reflexivity.
  - rewrite (IH _ _ _ _ Hnc), append_assoc'. reflexivity.
  - discriminate.
Qed.

Lemma wrapExec_listen_open (events : list StreamEvent) :
  forall out err,
    existsb is_close events = false -> wrapExec_listen events out err = None.
Proof.
  induction events as [|[data | data | code] events IH]; intros out err Hnc;
    cbn [wrapExec_listen]; [reflexivity | apply IH, Hnc | apply IH, Hnc
                           | discriminate].
Qed.

(** [wrapExec] resolves at the first "close": with the stdout chunks that
    came before it joined in order, the stderr chunks likewise and apart,
    and the code of the event; what the stream emits later does not count.
    Without a "close" the promise stays pending, and an error of
    [client.exec] rejects it. *)
Theorem wrapExec_joins_chunks :
  (forall before code later,
      existsb is_close before = false ->
      wrapExec_promise None (before ++ OnClose code :: later)
      = Some (inr {| stdout := joined false before;
                     stderr := joined true before;
                     exitCode := code |}))
  /\ (forall events,
         existsb is_close events = false ->
         wrapExec_promise None events = None)
  /\ (forall e events, wrapExec_promise (Some e) events = Some (inl e)).
Proof.
  split; [|split].
  - intros before code later Hnc. unfold wrapExec_promise.
    rewrite (wrapExec_listen_closed before "" "" code later Hnc).
    reflexivity.
  - intros events Hnc. unfold wrapExec_promise.
    rewrite (wrapExec_listen_open events "" "" Hnc). reflexivity.
  - reflexivity.
Qed.

Lemma wrapExec_joins_chunks_witness :
  wrapExec_promise None
    ([OnData "/home"; OnStderrData "warn"; OnData "/user"]
       ++ OnClose (Some 0%Z) :: [OnData "late"])
  = Some (inr {| stdout := "/home/user"; stderr := "warn";
                 exitCode := Some 0%Z |}).
Proof.
  apply (proj1 wrapExec_joins_chunks
           [OnData "/home"; OnStderrData "warn"; OnData "/user"]
           (Some 0%Z) [OnData "late"]).
  reflexivity.
Defined.

(* ================================================================== *)
(** * The handlers: the shape of the state *)
(* ================================================================== *)

Lemma no_use_after_end_snoc (l : list Call) (c : Call) :
  no_use_after_end l ->
  ~ In (CallEnd (client_of c)) l ->
  no_use_after_end (l ++ [c]).
Proof.
  intros Hl Hc l1 c' l2 Heq.
  destruct l2 as [|x l2] using rev_ind.
  - apply app_inj_tail in Heq as [-> ->]. exact Hc.
  - clear IHl2. rewrite app_comm_cons, app_assoc in Heq.
    apply app_inj_tail in Heq as [-> ->].
    apply (Hl l1 c' l2). reflexivity.
Qed.

Lemma consistent_initial : consistent initial.
Proof.
  split; cbn [initial connections calls clients].
  - intros k c H. rewrite lookup_empty in H. discriminate.
  - intros k1 k2 c1 c2 H. rewrite lookup_empty in H. discriminate.
  - intros k c H. rewrite lookup_empty in H. discriminate.
  - intros c [].
  - intros l1 c l2 H. destruct l1; discriminate.
Qed.

(** The client of an entry is one that was constructed. *)
Lemma consistent_client_known (st : State) k c :
  consistent st -> connections st !! k = Some c ->
  ConnInfo.client c < clients st.
Proof.
  intros Hst Hk. destruct (entries_live st Hst k c Hk) as [[cfg Hin] _].
  apply (calls_known st Hst) in Hin. exact Hin.
Qed.

Lemma live_log (cs : list Call) (h : nat) (c : Call) :
  live cs h -> c <> CallEnd h -> live (cs ++ [c]) h.
Proof.
  intros [[cfg Hc] Hne] Hneq. split.
  - exists cfg. apply in_or_app. left. exact Hc.
  - intros Hin. apply in_app_or in Hin as [Hin | [Hin | []]]; [auto|].
    congruence.
Qed.

(** A call other than [end()] on the client of an entry. *)
Lemma consistent_log_entry (st : State) k c (call : Call) :
  consistent st ->
  connections st !! k = Some c ->
  client_of call = ConnInfo.client c ->
  (forall h, call <> CallEnd h) ->
  consistent (log call st).
Proof.
  intros Hst Hk Hcl Hne.
  split; cbn [log connections calls clients].
  - apply (keyed_by_id st Hst).
  - apply (clients_exclusive st Hst).
  - intros k' c' Hk'. apply live_log; [apply (entries_live st Hst k' c' Hk')|].
    apply Hne.
  - intros c' Hin. apply in_app_or in Hin as [Hin | [<- | []]].
    + apply (calls_known st Hst), Hin.
    + rewrite Hcl. apply (consistent_client_known st k c Hst Hk).
  - apply no_use_after_end_snoc; [apply (calls_ordered st Hst)|].
    rewrite Hcl. apply (entries_live st Hst k c Hk).
Qed.

Lemma consistent_alter (st : State) (path k : string) :
  consistent st ->
  consistent (set_connections (alter (set_currentPath path) k) st).
Proof.
  intros Hst.
  assert (Hlook : forall k' c',
             alter (set_currentPath path) k (connections st) !! k' = Some c' ->
             exists c, connections st !! k' = Some c
                       /\ ConnInfo.connection_id c' = ConnInfo.connection_id c
                       /\ ConnInfo.client c' = ConnInfo.client c).
  { intros k' c' H. destruct (decide (k = k')) as [->|Hne].
    - rewrite lookup_alter_eq in H.
      destruct (connections st !! k') as [c|]; [|discriminate].
      injection H as <-. exists c. auto.
    - rewrite lookup_alter_ne in H by exact Hne. exists c'. auto. }
  split; cbn [set_connections connections calls clients].
  - intros k' c' H. apply Hlook in H as (c & Hc & -> & _).
    apply (keyed_by_id st Hst k' c Hc).
  - intros k1 k2 c1 c2 H1 H2 Heq.
    apply Hlook in H1 as (d1 & Hd1 & _ & E1).
    apply Hlook in H2 as (d2 & Hd2 & _ & E2).
    apply (clients_exclusive st Hst k1 k2 d1 d2 Hd1 Hd2). congruence.
  - intros k' c' H. apply Hlook in H as (c & Hc & _ & ->).
    apply (entries_live st Hst k' c Hc).
  - apply (calls_known st Hst).
  - apply (calls_ordered st Hst).
Qed.

Lemma consistent_close (st : State) k c :
  consistent st ->
  connections st !! k = Some c ->
  consistent (set_connections (delete k) (log (CallEnd (ConnInfo.client c)) st)).
Proof.
  intros Hst Hk.
  split; cbn [set_connections log connections calls clients].
  - intros k' c' H. apply lookup_delete_Some in H as [_ H].
    apply (keyed_by_id st Hst k' c' H).
  - intros k1 k2 c1 c2 H1 H2.
    apply lookup_delete_Some in H1 as [_ H1].
    apply lookup_delete_Some in H2 as [_ H2].
    apply (clients_exclusive st Hst k1 k2 c1 c2 H1 H2).
  - intros k' c' H. apply lookup_delete_Some in H as [Hne H].
    apply live_log; [apply (entries_live st Hst k' c' H)|].
    intros Heq. injection Heq as Heq. apply Hne.
    apply (clients_exclusive st Hst k k' c c' Hk H). congruence.
  - intros c' Hin. apply in_app_or in Hin as [Hin | [<- | []]].
    + apply (calls_known st Hst), Hin.
    + apply (consistent_client_known st k c Hst Hk).
  - apply no_use_after_end_snoc; [apply (calls_ordered st Hst)|].
    apply (entries_live st Hst k c Hk).
Qed.

(** The client that was just constructed is in no entry and in no call. *)
Lemma consistent_construct (st : State) :
  consistent st ->
  consistent (construct st) /\ pending (construct st) (clients st).
Proof.
  intros Hst. unfold pending.
  split; [split|]; cbn [construct connections calls clients].
  - apply (keyed_by_id st Hst).
  - apply (clients_exclusive st Hst).
  - apply (entries_live st Hst).
  - intros c Hin. apply (calls_known st Hst) in Hin. lia.
  - apply (calls_ordered st Hst).
  - split; [lia|]. split.
    + intros k c Hk Heq.
      pose proof (consistent_client_known st k c Hst Hk). lia.
    + intros Hin. apply (calls_known st Hst) in Hin. cbn in Hin. lia.
Qed.

(** A call other than [end()] on a pending client. *)
Lemma pending_log (st : State) (h : nat) (call : Call) :
  consistent st -> pending st h ->
  client_of call = h -> call <> CallEnd h ->
  consistent (log call st) /\ pending (log call st) h.
Proof.
  intros Hst (Hlt & Hfree & Hend) Hcl Hne. unfold pending.
  split; [split|]; cbn [log connections calls clients].
  - apply (keyed_by_id st Hst).
  - apply (clients_exclusive st Hst).
  - intros k c Hk. apply live_log; [apply (entries_live st Hst k c Hk)|].
    intros ->. cbn in Hcl. apply (Hfree k c Hk). congruence.
  - intros c Hin. apply in_app_or in Hin as [Hin | [<- | []]].
    + apply (calls_known st Hst), Hin.
    + rewrite Hcl. exact Hlt.
  - apply no_use_after_end_snoc; [apply (calls_ordered st Hst)|].
    rewrite Hcl. exact Hend.
  - split; [exact Hlt|]. split; [exact Hfree|].
    intros Hin. apply in_app_or in Hin as [Hin | [Hin | []]]; auto.
Qed.

Lemma pending_end (st : State) (h : nat) :
  consistent st -> pending st h -> consistent (log (CallEnd h) st).
Proof.
  intros Hst (Hlt & Hfree & Hend).
  split; cbn [log connections calls clients].
  - apply (keyed_by_id st Hst).
  - apply (clients_exclusive st Hst).
  - intros k c Hk. apply live_log; [apply (entries_live st Hst k c Hk)|].
    intros Heq. injection Heq as Heq. apply (Hfree k c Hk). congruence.
  - intros c Hin. apply in_app_or in Hin as [Hin | [<- | []]].
    + apply (calls_known st Hst), Hin.
    + exact Hlt.
  - apply no_use_after_end_snoc; [apply (calls_ordered st Hst)|]. exact Hend.
Qed.

Lemma pending_register (st : State) (h : nat) (id : string)
    (conn : ConnInfo.t) :
  consistent st -> pending st h ->
  (exists cfg, In (CallConnect h cfg) (calls st)) ->
  ConnInfo.client conn = h ->
  ConnInfo.connection_id conn = id ->
  consistent (set_connections (insert id conn) st).
Proof.
  intros Hst (Hlt & Hfree & Hend) Hconn Hcl Hid.
  split; cbn [set_connections connections calls clients].
  - intros k c H. apply lookup_insert_Some in H as [[<- <-] | [_ H]];
      [exact Hid | apply (keyed_by_id st Hst k c H)].
  - intros k1 k2 c1 c2 H1 H2 Heq.
    apply lookup_insert_Some in H1 as [[<- <-] | [N1 H1]];
      apply lookup_insert_Some in H2 as [[<- <-] | [N2 H2]].
    + reflexivity.
    + exfalso. apply (Hfree k2 c2 H2). congruence.
    + exfalso. apply (Hfree k1 c1 H1). congruence.
    + apply (clients_exclusive st Hst k1 k2 c1 c2 H1 H2 Heq).
  - intros k c H. apply lookup_insert_Some in H as [[<- <-] | [_ H]].
    + rewrite Hcl. split; assumption.
    + apply (entries_live st Hst k c H).
  - apply (calls_known st Hst).
  - apply (calls_ordered st Hst).
Qed.

(** Every change of state the handlers make keeps the shape. *)
Lemma transition_consistent (E : Env) (st st' : State) :
  consistent st -> transition E st st' -> consistent st'.
Proof.
  intros Hst Hstep. destruct Hstep.
  - exact Hst.
  - eapply consistent_log_entry; eauto; discriminate.
  - eapply consistent_log_entry.
    + eapply consistent_log_entry; eauto; discriminate.
    + cbn [log connections]. eassumption.
    + reflexivity.
    + discriminate.
  - apply consistent_alter. eapply consistent_log_entry.
    + eapply consistent_log_entry; eauto; discriminate.
    + cbn [log connections]. eassumption.
    + reflexivity.
    + discriminate.
  - apply consistent_close; assumption.
  - apply consistent_construct, Hst.
  - destruct (consistent_construct st Hst) as [H1 P1].
    apply (pending_log _ _ (CallConnect (clients st) cfg) H1 P1);
      [reflexivity | discriminate].
  - destruct (consistent_construct st Hst) as [H1 P1].
    destruct (pending_log _ _ (CallConnect (clients st) cfg) H1 P1
                eq_refl ltac:(discriminate)) as [H2 P2].
    destruct (pending_log _ _ (CallExec (clients st) "pwd") H2 P2
                eq_refl ltac:(discriminate)) as [H3 P3].
    apply pending_end; assumption.
  - destruct (consistent_construct st Hst) as [H1 P1].
    destruct (pending_log _ _ (CallConnect (clients st) cfg) H1 P1
                eq_refl ltac:(discriminate)) as [H2 P2].
    destruct (pending_log _ _ (CallExec (clients st) "pwd") H2 P2
                eq_refl ltac:(discriminate)) as [H3 P3].
    apply (pending_register _ (clients st)); try assumption.
    exists cfg. cbn [log calls construct]. apply in_or_app. left.
    apply in_or_app. right. left. reflexivity.
Qed.

Section Sessions.

Context (E : Env).

Ltac open_handler :=
  unfold call_tool, create_connection, execute_command,
    secure_execute_command, close_connection, get_connections,
    get_available_connections, get_connection, wrapExec, connect,
    end_client, new_client, draw_uuid, modify, catch, bind, ret, throw;
  cbn [String.eqb Ascii.eqb Bool.eqb andb].

(** Whatever the request, the state changes in one of the listed ways. *)
Lemma call_tool_transition (name : string) (args : Args) (st : State) :
  transition E st (snd (call_tool E name args st)).
Proof.
  open_handler.
  repeat (case_match; simplify_eq; cbn [settle] in * ); cbn [snd];
    first [ apply StepNone
          | eapply StepExec; eassumption
          | eapply StepExecProbeFailed; eassumption
          | eapply StepExecProbe; eassumption
          | eapply StepClose; eassumption
          | apply StepConstruct
          | apply StepHandshakeFailed
          | apply StepProbeFailed
          | apply (StepCreated E st); reflexivity ].
Qed.

Lemma run_consistent (requests : list (string * Args)) (st : State) :
  consistent st -> consistent (snd (run E requests st)).
Proof.
  revert st. induction requests as [|[name args] rest IH]; intros st Hst;
    [exact Hst|].
  rewrite run_cons. cbn [snd]. apply IH.
  apply (transition_consistent E st); [exact Hst|].
  apply call_tool_transition.
Qed.

Lemma reachable_consistent (st : State) : reachable E st -> consistent st.
Proof.
  intros [requests ->]. apply run_consistent, consistent_initial.
Qed.

(** ** What holds in every state the process reaches *)

(** Every session is stored under the connection_id it carries. *)
Theorem sessions_keyed_by_id (st : State) (k : string) (c : ConnInfo.t) :
  reachable E st ->
  connections st !! k = Some c ->
  ConnInfo.connection_id c = k.
Proof.
  intros Hr. apply (keyed_by_id st (reachable_consistent st Hr)).
Qed.

(** Two sessions never share an ssh2 client. *)
Theorem sessions_own_their_client (st : State) (k1 k2 : string)
    (c1 c2 : ConnInfo.t) :
  reachable E st ->
  connections st !! k1 = Some c1 ->
  connections st !! k2 = Some c2 ->
  k1 <> k2 ->
  ConnInfo.client c1 <> ConnInfo.client c2.
Proof.
  intros Hr H1 H2 Hne Heq. apply Hne.
  apply (clients_exclusive st (reachable_consistent st Hr) k1 k2 c1 c2);
    assumption.
Qed.

(** The client of a session in the registry was connected, and [end()] was
    never called on it. *)
Theorem sessions_live (st : State) (k : string) (c : ConnInfo.t) :
  reachable E st ->
  connections st !! k = Some c ->
  (exists cfg, In (CallConnect (ConnInfo.client c) cfg) (calls st))
  /\ ~ In (CallEnd (ConnInfo.client c)) (calls st).
Proof.
  intros Hr. apply (entries_live st (reachable_consistent st Hr)).
Qed.

(** ** create_connection *)

(** With the machine in the inventory, its configuration built, the
    handshake answered by 'ready' and the first pwd resolved, the session is
    registered under the UUID drawn, with the trimmed output of pwd as its
    currentPath; the reply shows that entry, and the calls made are the
    connect and the pwd. *)
Theorem create_connection_success (st : State) (args : Args) (m t : string)
    (machine : Machine.t) (cfg : SshConfig) (r : ExecResult) :
  arg_machine_id args = Some m ->
  arg_title args = Some t ->
  m <> "" -> t <> "" ->
  findMachine E m = Some machine ->
  buildSshConfig E machine = inr cfg ->
  ssh_connect E (calls st) (clients st) cfg = None ->
  ssh_exec E (calls st ++ [CallConnect (clients st) cfg]) (clients st) "pwd"
  = inr r ->
  let conn :=
    {| ConnInfo.connection_id := randomUUID E (uuids st);
       ConnInfo.machine_id := m;
       ConnInfo.title := t;
       ConnInfo.currentPath := trim_string (stdout r);
       ConnInfo.client := clients st |} in
  exists st',
    call_tool E "create_connection" args st = (inr (Created (view conn)), st')
    /\ connections st' = <[randomUUID E (uuids st) := conn]> (connections st)
    /\ calls st' = calls st ++ [CallConnect (clients st) cfg;
                                CallExec (clients st) "pwd"].
Proof.
  intros Hm Ht Hm0 Ht0 Hfind Hcfg Hready Hpwd conn. open_handler.
  rewrite Hm, Ht, Hfind. unfold truthy.
  apply String.eqb_neq in Hm0. apply String.eqb_neq in Ht0.
  rewrite Hm0, Ht0. cbn [negb orb]. rewrite Hcfg.
  cbn [settle log calls connections uuids clients].
  rewrite Hready. cbn [settle log calls connections uuids clients].
  rewrite Hpwd. cbn [settle].
  eexists. split; [reflexivity|].
  cbn [set_connections log calls connections].
  split; [reflexivity|]. rewrite <- app_assoc. reflexivity.
Qed.

(** When the key file of the machine cannot be read, create_connection
    throws the error of the file system: no call reaches ssh2 and the
    registry is untouched, though a client was constructed and a UUID
    drawn. *)
Theorem create_connection_key_unreadable (st : State) (args : Args)
    (m t path err : string) (machine : Machine.t) :
  arg_machine_id args = Some m ->
  arg_title args = Some t ->
  m <> "" -> t <> "" ->
  findMachine E m = Some machine ->
  Machine.keyPath (Machine.ssh_of machine) = Some path ->
  path <> "" ->
  readFileSync E path = inl err ->
  call_tool E "create_connection" args st = (inl (Thrown err), construct st).
Proof.
  intros Hm Ht Hm0 Ht0 Hfind Hkey Hp0 Hread. open_handler.
  rewrite Hm, Ht, Hfind. unfold truthy.
  apply String.eqb_neq in Hm0. apply String.eqb_neq in Ht0.
  rewrite Hm0, Ht0. cbn [negb orb].
  unfold buildSshConfig. rewrite Hkey. unfold truthy.
  apply String.eqb_neq in Hp0. rewrite Hp0. cbn [negb]. rewrite Hread.
  reflexivity.
Qed.

(** Closing the session that create_connection has just returned gives the
    registry back as it was before the two calls. *)
Theorem create_then_close_restores (st st1 : State) (args args' : Args)
    (v : SessionView) :
  fresh_ids E ->
  reachable E st ->
  call_tool E "create_connection" args st = (inr (Created v), st1) ->
  arg_connection_id args' = Some (view_connection_id v) ->
  exists st2,
    call_tool E "close_connection" args' st1 = (inr Closed, st2)
    /\ connections st2 = connections st.
Proof.
  intros Hfresh Hreach Hcreate Hk.
  destruct (create_success E st st1 args v Hcreate)
    as (Hid & Hnext & conn & Hview & Hconns).
  assert (Hlook : connections st1 !! view_connection_id v = Some conn).
  { rewrite Hconns. apply lookup_insert_eq. }
  rewrite (close_present E st1 args' _ conn Hk Hlook).
  eexists. split; [reflexivity|].
  cbn [set_connections log connections]. rewrite Hconns.
  apply delete_insert_id.
  destruct (connections st !! view_connection_id v) as [c|] eqn:Hold;
    [|reflexivity].
  destruct (reachable_ids_drawn E st Hreach _ (mk_is_Some _ _ Hold))
    as (i & Hi & Heq).
  rewrite Hid in Heq. apply Hfresh in Heq. lia.
Qed.

(** ** execute_command and secure_execute_command *)

(** A command that is absent, empty or only whitespace is refused by both
    tools before the connection is looked up, with the state untouched. *)
Theorem blank_command_rejected (name : string) (args : Args) (st : State) :
  name = "execute_command" \/ name = "secure_execute_command" ->
  blank (arg_command args) = true ->
  call_tool E name args st = (inl EmptyCommand, st).
Proof.
  intros [-> | ->] Hb; open_handler;
    destruct (arg_command args) as [c|]; try reflexivity;
    rewrite Hb; reflexivity.
Qed.

(** An execute_command that throws leaves the registry, hence every
    currentPath, as it was. *)
Theorem execute_failure_keeps_registry (st st' : State) (args : Args)
    (e : Error) :
  call_tool E "execute_command" args st = (inl e, st') ->
  connections st' = connections st.
Proof.
  open_handler. intros H.
  repeat (case_match; simplify_eq; cbn [settle] in * ); reflexivity.
Qed.

(** execute_command changes at most the currentPath of the session it
    addresses: every other entry, the set of keys and the other fields of
    that session stay. *)
Theorem execute_changes_only_currentPath (st : State) (args : Args)
    (k : string) :
  let st' := snd (call_tool E "execute_command" args st) in
  connections st' !! k = connections st !! k
  \/ (arg_connection_id args = Some k
      /\ exists c path,
           connections st !! k = Some c
           /\ connections st' !! k = Some (set_currentPath path c)).
Proof.
  open_handler.
  repeat (case_match; simplify_eq; cbn [settle] in * );
    cbn [snd set_connections log connections]; auto.
  match goal with
  | |- context [alter _ ?k' _ !! k] => destruct (decide (k' = k)) as [->|Hne]
  end.
  - right. split; [reflexivity|]. do 2 eexists. split; [eassumption|].
    rewrite lookup_alter_eq.
    match goal with H : connections _ !! k = Some _ |- _ => rewrite H end.
    reflexivity.
  - left. apply lookup_alter_ne. exact Hne.
Qed.

(** On an open session, with a command that is not blank and that the
    transport runs, the pwd probe follows exactly when the trimmed command
    starts with the four characters c, d, backslash, s. *)
Theorem probe_iff_backslash_s (st : State) (args : Args) (k command : string)
    (conn : ConnInfo.t) (r : ExecResult) :
  arg_connection_id args = Some k ->
  arg_command args = Some command ->
  blank (Some command) = false ->
  connections st !! k = Some conn ->
  ssh_exec E (calls st) (ConnInfo.client conn) command = inr r ->
  let st' := snd (call_tool E "execute_command" args st) in
  let sent := CallExec (ConnInfo.client conn) command in
  let probe := CallExec (ConnInfo.client conn) "pwd" in
  ((exists rest, trim (chars command) = chars "cd\s" ++ rest) ->
   calls st' = calls st ++ [sent; probe])
  /\ (~ (exists rest, trim (chars command) = chars "cd\s" ++ rest) ->
      calls st' = calls st ++ [sent] /\ connections st' = connections st).
Proof.
  intros Hk Hc Hb Hconn Hr.
  rewrite (execute_command_open E st args k command conn Hk Hc Hb Hconn).
  cbn zeta. rewrite Hr. split.
  - intros Hpre. apply cd_pattern_spec in Hpre. rewrite Hpre.
    destruct (ssh_exec E _ _ "pwd"); cbn [snd set_connections log calls];
      rewrite <- app_assoc; reflexivity.
  - intros Hpre.
    destruct (test cd_pattern (trim (chars command))) eqn:Ht.
    + exfalso. apply Hpre, cd_pattern_spec, Ht.
    + split; reflexivity.
Qed.

(** secure_execute_command never touches the registry (it sends no
    directory probe), and the only call it can make is one exec of the
    command as it was typed, which the classifier allows. *)
Theorem secure_keeps_registry (st : State) (args : Args) :
  let st' := snd (call_tool E "secure_execute_command" args st) in
  connections st' = connections st
  /\ (calls st' = calls st
      \/ exists k conn command,
           arg_connection_id args = Some k
           /\ arg_command args = Some command
           /\ connections st !! k = Some conn
           /\ isCommandDangerous command = false
           /\ calls st' = calls st ++ [CallExec (ConnInfo.client conn) command]).
Proof.
  open_handler.
  repeat (case_match; simplify_eq; cbn [settle] in * );
    cbn [snd log connections calls]; (split; [reflexivity|]); auto;
    right; do 3 eexists; eauto.
Qed.

(** For a command the classifier allows and that does not start the
    directory probe, the two execution tools do the same. *)
Theorem secure_agrees_with_execute (st : State) (args : Args)
    (command : string) :
  arg_command args = Some command ->
  isCommandDangerous command = false ->
  ~ (exists rest, trim (chars command) = chars "cd\s" ++ rest) ->
  call_tool E "secure_execute_command" args st
  = call_tool E "execute_command" args st.
Proof.
  intros Hc Hd Hpre.
  assert (Ht : test cd_pattern (trim (chars command)) = false).
  { destruct (test cd_pattern (trim (chars command))) eqn:Ht; [|reflexivity].
    exfalso. apply Hpre, cd_pattern_spec, Ht. }
  open_handler. rewrite Hc, Ht.
  destruct (blank (Some command)); [reflexivity|].
  destruct (arg_connection_id args) as [k|]; [|reflexivity].
  destruct (connections st !! k) as [conn|]; [|reflexivity].
  rewrite Hd. destruct (ssh_exec E (calls st) _ command); reflexivity.
Qed.

Lemma restricted_step (name : string) (args : Args) (st : State) (h : nat)
    (command : string) :
  name <> "execute_command" ->
  In (CallExec h command) (calls (snd (call_tool E name args st))) ->
  In (CallExec h command) (calls st) \/ isCommandDangerous command = false.
Proof.
  intros Hname. open_handler.
  repeat (case_match; simplify_eq; cbn [settle] in * );
    cbn [snd log set_connections calls]; rewrite ?in_app_iff; cbn [In];
    intros Hin; auto;
    try match goal with
      | H : (name =? "execute_command")%string = true |- _ =>
          apply String.eqb_eq in H; contradiction
      end;
    repeat (destruct Hin as [Hin | Hin]); auto; try contradiction;
    simplify_eq; auto; right; vm_compute; reflexivity.
Qed.

(** As long as execute_command is not among the requests, no command that
    the classifier denies is ever handed to ssh2. *)
Theorem restricted_requests_exec_allowed_only
    (requests : list (string * Args)) (h : nat) (command : string) :
  (forall name args, In (name, args) requests -> name <> "execute_command") ->
  In (CallExec h command) (calls (snd (run E requests initial))) ->
  isCommandDangerous command = false.
Proof.
  intros Hnames Hin.
  assert (Hgen : forall st,
             In (CallExec h command) (calls (snd (run E requests st))) ->
             In (CallExec h command) (calls st)
             \/ isCommandDangerous command = false).
  { clear Hin. induction requests as [|[name args] rest IH]; intros st Hin;
      [left; exact Hin|].
    rewrite run_cons in Hin. cbn [snd] in Hin.
    apply IH in Hin as [Hin | Hok]; [|right; exact Hok|].
    - apply (restricted_step name args st); [|exact Hin].
      apply (Hnames name args). left. reflexivity.
    - intros n a Hna. apply (Hnames n a). right. exact Hna. }
  destruct (Hgen initial Hin) as [[] | Hok]. exact Hok.
Qed.

(** ** The dispatcher and the advertised tools *)

(** The names the dispatcher refuses are exactly those that ListTools does
    not advertise; a refused request changes nothing. *)
Theorem unknown_tool_iff_not_advertised (name : string) (args : Args)
    (st : State) :
  (~ In name (map fst advertisedTools) ->
   call_tool E name args st = (inl (UnknownTool name), st))
  /\ (forall name' st',
         call_tool E name args st = (inl (UnknownTool name'), st') ->
         ~ In name (map fst advertisedTools)).
Proof.
  split.
  - cbn [advertisedTools map fst In]. intros Hnot. unfold call_tool.
    repeat match goal with
           | |- context [String.eqb name ?n] =>
               destruct (String.eqb_spec name n) as [->|_];
               [exfalso; apply Hnot; tauto|]
           end.
    reflexivity.
  - intros name' st' Hcall Hin. cbn [advertisedTools map fst In] in Hin.
    revert Hcall.
    repeat (destruct Hin as [<- | Hin]); try contradiction; open_handler;
      intros Hcall; try discriminate; unfold settle in *;
      repeat (case_match; simplify_eq).
Qed.

(** A request that leaves out a field its schema requires is refused, with
    the state untouched. *)
Theorem missing_required_field_rejected (name : string)
    (required : list Field) (f : Field) (args : Args) (st : State) :
  In (name, required) advertisedTools ->
  In f required ->
  field f args = None ->
  exists e, call_tool E name args st = (inl e, st).
Proof.
  cbn [advertisedTools In]. intros Htool Hf Hnone.
  repeat (destruct Htool as [Htool | Htool]); try contradiction;
    injection Htool as <- <-; cbn [In] in Hf;
    repeat (destruct Hf as [<- | Hf]); try contradiction;
    cbn [field] in Hnone; open_handler; rewrite ?Hnone;
    repeat (case_match; simplify_eq; cbn [settle] in * ); eauto.
Qed.

(** ** The inventory *)

(** [findMachine] returns the first machine of the inventory that has the
    id, and nothing only when no machine has it. *)
Theorem findMachine_first_match (machine_id : string) :
  (forall before m after,
      availableMachines E = before ++ m :: after ->
      Machine.machine_id m = machine_id ->
      (forall m', In m' before -> Machine.machine_id m' <> machine_id) ->
      findMachine E machine_id = Some m)
  /\ (findMachine E machine_id = None <->
      forall m, In m (availableMachines E) ->
                Machine.machine_id m <> machine_id).
Proof.
  unfold findMachine. split.
  - intros before m after -> Hm Hbefore.
    induction before as [|b before IH]; cbn [app List.find].
    + apply String.eqb_eq in Hm. rewrite Hm. reflexivity.
    + destruct (String.eqb_spec (Machine.machine_id b) machine_id) as [Hb|_].
      * exfalso. apply (Hbefore b); [left; reflexivity | exact Hb].
      * apply IH. intros m' Hin. apply Hbefore. right. exact Hin.
  - split.
    + intros Hnone m Hin Heq.
      pose proof (find_none _ _ Hnone m Hin) as Hf. cbn in Hf.
      apply String.eqb_neq in Hf. contradiction.
    + intros Hall. induction (availableMachines E) as [|b l IH];
        [reflexivity|]. cbn [List.find].
      destruct (String.eqb_spec (Machine.machine_id b) machine_id) as [Hb|_].
      * exfalso. apply (Hall b); [left; reflexivity | exact Hb].
      * apply IH. intros m Hin. apply Hall. right. exact Hin.
Qed.


(** ** get_connections and close_connection *)

(** get_connections shows a session under its id right after
    create_connection returned it, with the fields of that reply. *)
Theorem created_session_is_listed (st st1 : State) (args args' : Args)
    (v : SessionView) :
  call_tool E "create_connection" args st = (inr (Created v), st1) ->
  exists cs,
    call_tool E "get_connections" args' st1 = (inr (Connections cs), st1)
    /\ cs !! view_connection_id v = Some v.
Proof.
  intros Hcreate.
  destruct (create_success E st st1 args v Hcreate)
    as (_ & _ & conn & Hview & Hconns).
  open_handler. eexists. split; [reflexivity|].
  rewrite lookup_fmap, Hconns, lookup_insert_eq, <- Hview. reflexivity.
Qed.

(** Closing a session removes that session from what get_connections shows
    and leaves every other session as it was. *)
Theorem close_removes_only_its_session (st : State) (args args' : Args)
    (k : string) (conn : ConnInfo.t) :
  arg_connection_id args = Some k ->
  connections st !! k = Some conn ->
  let st' := snd (call_tool E "close_connection" args st) in
  (forall k', k' <> k -> connections st' !! k' = connections st !! k')
  /\ size (connections st) = S (size (connections st'))
  /\ exists cs,
       call_tool E "get_connections" args' st' = (inr (Connections cs), st')
       /\ cs !! k = None.
Proof.
  intros Hk Hconn. rewrite (close_present E st args k conn Hk Hconn).
  cbn [snd set_connections log connections]. split; [|split].
  - intros k' Hne. apply lookup_delete_ne. congruence.
  - rewrite <- (insert_delete_id (connections st) k conn Hconn) at 1.
    apply map_size_insert_None, lookup_delete_eq.
  - open_handler. eexists. split; [reflexivity|].
    cbn [set_connections log connections].
    rewrite lookup_fmap, lookup_delete_eq. reflexivity.
Qed.

End Sessions.

(* ================================================================== *)
(** * The further properties on the concrete environments *)
(* ================================================================== *)

Lemma sessions_keyed_by_id_witness : ConnInfo.connection_id demo_conn = "0".
Proof.
  apply (sessions_keyed_by_id demo_env one_session "0" demo_conn).
  - exists [("create_connection", create_args "todo-server-01" "deploy")].
    reflexivity.
  - vm_compute. reflexivity.
Defined.

Lemma sessions_own_their_client_witness :
  ConnInfo.client demo_conn <> ConnInfo.client second_conn.
Proof.
  apply (sessions_own_their_client demo_env two_sessions "0" "1"
           demo_conn second_conn).
  - exists [("create_connection", create_args "todo-server-01" "deploy");
            ("create_connection", create_args "todo-server-01" "logs")].
    reflexivity.
  - vm_compute. reflexivity.
  - vm_compute. reflexivity.
  - discriminate.
Defined.

Lemma sessions_live_witness :
  (exists cfg, In (CallConnect (ConnInfo.client demo_conn) cfg)
                 (calls one_session))
  /\ ~ In (CallEnd (ConnInfo.client demo_conn)) (calls one_session).
Proof.
  apply (sessions_live demo_env one_session "0" demo_conn).
  - exists [("create_connection", create_args "todo-server-01" "deploy")].
    reflexivity.
  - vm_compute. reflexivity.
Defined.

Lemma create_connection_success_witness :
  exists st',
    call_tool demo_env "create_connection"
      (create_args "todo-server-01" "deploy") initial
    = (inr (Created (view demo_conn)), st')
    /\ connections st' = <["0" := demo_conn]> (connections initial)
    /\ calls st' = calls initial ++ [CallConnect 0 demo_cfg; CallExec 0 "pwd"].
Proof.
  apply (create_connection_success demo_env initial
           (create_args "todo-server-01" "deploy")
           "todo-server-01" "deploy" demo_machine demo_cfg home_reply).
  - reflexivity.
  - reflexivity.
  - discriminate.
  - discriminate.
  - reflexivity.
  - reflexivity.
  - reflexivity.
  - reflexivity.
Defined.

Lemma create_connection_key_unreadable_witness :
  call_tool key_env "create_connection"
    (create_args "build-agent-01" "build") initial
  = (inl (Thrown "ENOENT: /home/ubuntu/.ssh/id_rsa"), construct initial).
Proof.
  apply (create_connection_key_unreadable key_env initial
           (create_args "build-agent-01" "build") "build-agent-01" "build"
           "/home/ubuntu/.ssh/id_rsa" "ENOENT: /home/ubuntu/.ssh/id_rsa"
           key_machine).
  - reflexivity.
  - reflexivity.
  - discriminate.
  - discriminate.
  - reflexivity.
  - reflexivity.
  - discriminate.
  - reflexivity.
Defined.

Lemma create_then_close_restores_witness :
  exists st2,
    call_tool demo_env "close_connection" (close_args "1") two_sessions
    = (inr Closed, st2)
    /\ connections st2 = connections one_session.
Proof.
  apply (create_then_close_restores demo_env one_session two_sessions
           (create_args "todo-server-01" "logs") (close_args "1")
           second_view).
  - intros i j H. exact (inj (pretty : nat -> string) _ _ H).
  - exists [("create_connection", create_args "todo-server-01" "deploy")].
    reflexivity.
  - vm_compute. reflexivity.
  - reflexivity.
Defined.

Lemma blank_command_rejected_witness :
  call_tool demo_env "execute_command" (command_args "0" "   ") one_session
  = (inl EmptyCommand, one_session).
Proof.
  apply (blank_command_rejected demo_env "execute_command"
           (command_args "0" "   ") one_session).
  - left. reflexivity.
  - vm_compute. reflexivity.
Defined.

Lemma execute_failure_keeps_registry_witness :
  connections
    (log (CallExec 0 "pwd") (log (CallExec 0 "cd\s") one_session))
  = connections one_session.
Proof.
  apply (execute_failure_keeps_registry probe_fails_env one_session
           (log (CallExec 0 "pwd") (log (CallExec 0 "cd\s") one_session))
           (command_args "0" "cd\s") (Thrown "Channel open failure")).
  vm_compute. reflexivity.
Defined.

Lemma probe_iff_backslash_s_witness :
  let st' := snd (call_tool demo_env "execute_command"
                    (command_args "0" "cd\s") one_session) in
  ((exists rest, trim (chars "cd\s") = chars "cd\s" ++ rest) ->
   calls st' = calls one_session ++ [CallExec 0 "cd\s"; CallExec 0 "pwd"])
  /\ (~ (exists rest, trim (chars "cd\s") = chars "cd\s" ++ rest) ->
      calls st' = calls one_session ++ [CallExec 0 "cd\s"]
      /\ connections st' = connections one_session).
Proof.
  apply (probe_iff_backslash_s demo_env one_session (command_args "0" "cd\s")
           "0" "cd\s" demo_conn home_reply).
  - reflexivity.
  - reflexivity.
  - vm_compute. reflexivity.
  - vm_compute. reflexivity.
  - reflexivity.
Defined.

Lemma secure_agrees_with_execute_witness :
  call_tool demo_env "secure_execute_command" (command_args "0" "ls")
    one_session
  = call_tool demo_env "execute_command" (command_args "0" "ls") one_session.
Proof.
  apply (secure_agrees_with_execute demo_env one_session
           (command_args "0" "ls") "ls").
  - reflexivity.
  - vm_compute. reflexivity.
  - intros [rest H]. vm_compute in H. discriminate.
Defined.

Lemma restricted_requests_exec_allowed_only_witness :
  isCommandDangerous "uptime" = false.
Proof.
  apply (restricted_requests_exec_allowed_only demo_env
           [("create_connection", create_args "todo-server-01" "deploy");
            ("secure_execute_command", command_args "0" "uptime");
            ("secure_execute_command", command_args "0" "rm -rf /")]
           0 "uptime").
  - intros name args [H | [H | [H | []]]]; injection H as <- _; discriminate.
  - vm_compute. tauto.
Defined.

Lemma unknown_tool_iff_not_advertised_witness :
  call_tool demo_env "delete_everything" no_args initial
  = (inl (UnknownTool "delete_everything"), initial).
Proof.
  apply (proj1 (unknown_tool_iff_not_advertised demo_env "delete_everything"
                  no_args initial)).
  cbn. intros H. repeat (destruct H as [H | H]; [discriminate|]). exact H.
Defined.

Lemma missing_required_field_rejected_witness :
  exists e,
    call_tool demo_env "execute_command" (close_args "0") one_session
    = (inl e, one_session).
Proof.
  apply (missing_required_field_rejected demo_env "execute_command"
           [FConnectionId; FCommand] FCommand (close_args "0") one_session).
  - cbn. tauto.
  - cbn. tauto.
  - reflexivity.
Defined.

Lemma findMachine_first_match_witness :
  findMachine key_env "build-agent-01" = Some key_machine.
Proof.
  apply (proj1 (findMachine_first_match key_env "build-agent-01")
           [demo_machine] key_machine []).
  - reflexivity.
  - reflexivity.
  - intros m' [<- | []]. discriminate.
Defined.

Lemma created_session_is_listed_witness :
  exists cs,
    call_tool demo_env "get_connections" no_args two_sessions
    = (inr (Connections cs), two_sessions)
    /\ cs !! "1" = Some second_view.
Proof.
  apply (created_session_is_listed demo_env one_session two_sessions
           (create_args "todo-server-01" "logs") no_args second_view).
  vm_compute. reflexivity.
Defined.

Lemma close_removes_only_its_session_witness :
  let st' :=
    snd (call_tool demo_env "close_connection" (close_args "0") two_sessions) in
  (forall k', k' <> "0" ->
              connections st' !! k' = connections two_sessions !! k')
  /\ size (connections two_sessions) = S (size (connections st'))
  /\ exists cs,
       call_tool demo_env "get_connections" no_args st'
       = (inr (Connections cs), st')
       /\ cs !! "0" = None.
Proof.
  apply (close_removes_only_its_session demo_env two_sessions
           (close_args "0") no_args "0" demo_conn).
  - reflexivity.
  - vm_compute. reflexivity.
Defined.
